(** * Cartesian segment/segment intersection strategy

    A shallow embedding of
    [boost/geometry/strategies/cartesian/cart_intersect.hpp]
    ([strategy::intersection::relate_cartesian_segments]) together with the
    properties its design document states about it.

    Modelling conventions. The templates are read twice.
    - In exact arithmetic (the top-level definitions): the calculation type
      of the input segments ([coordinate_type] and [promoted_type]) is the
      field of rationals [Q], where division by a zero divisor is undefined
      (the computation fails), and the coordinate type of the robust
      (rescaled) points is [Z] without bound. This is the mathematical
      content of the algorithm: no overflow, rounding, infinity or NaN.
    - In machine arithmetic (module [Machine]): the segments have IEEE 754
      binary64 coordinates and the robust points [long long] coordinates
      whose differences and products wrap around at 64 bits. Robust
      coordinates strictly between -2^30 and 2^30 ([Machine.in_range]) keep
      every difference and product of [apply] within 64 bits; there both
      readings compute the same robust determinants and ratios.
    - [std::cout] is a list of emitted lines.
    - The [Policy] template parameter is the free policy: every static member
      of [Policy] is a constructor of [return_type], so that the value
      returned by [apply] records which member was called with which
      arguments. *)

From Stdlib Require Import ZArith QArith List String Bool Lia Lqa SpecFloat.
Import ListNotations.

Local Open Scope Z_scope.

(** ** Numeric types of the templates *)

(** The operations the templates require of a number type. *)
Class Arith (T : Type) := {
  a_sub : T -> T -> T;
  a_mul : T -> T -> T
}.

#[global] Instance Arith_Z : Arith Z := {| a_sub := Z.sub; a_mul := Z.mul |}.
#[global] Instance Arith_Q : Arith Q := {| a_sub := Qminus; a_mul := Qmult |}.

(** Modelled from the spec: [geometry::detail::determinant<ReturnType>]
    (arithmetic/determinant.hpp is not part of the sources at hand); the
    "numerator/denominator cross-product form" of section 4.2, i.e. the
    2x2 determinant [ux * vy - uy * vx]. *)
Definition determinant {T} `{Arith T} (ux uy vx vy : T) : T :=
  a_sub (a_mul ux vy) (a_mul uy vx).

(** [<] on the promoted type. *)
Definition Qltb (x y : Q) : bool := negb (Qle_bool y x).

(** ** Points and segments *)

Record point := Point { px : Q; py : Q }.

Record segment := Segment { seg_first : point; seg_second : point }.

(** [get<Index, Dimension>(s)] *)
Definition get_indexed (index dimension : nat) (s : segment) : Q :=
  let p := match index with O => seg_first s | _ => seg_second s end in
  match dimension with O => px p | _ => py p end.

Record robust_point := RPoint { rx : Z; ry : Z }.

(** [get<Dimension>(p)] on a robust point *)
Definition get (dimension : nat) (p : robust_point) : Z :=
  match dimension with O => rx p | _ => ry p end.

(** Modelled from the spec: [detail::equals::equals_point_point]
    (algorithms/detail/disjoint/point_point.hpp is missing); "start == end",
    coordinate-wise equality of two points. *)
Definition equals_point_point (p q : robust_point) : bool :=
  (rx p =? rx q) && (ry p =? ry q).

(** ** Side evidence *)

(** Modelled from the spec: [side_info] (strategies/side_info.hpp is missing).
    "The four orientation signs from testing each segment's endpoints against
    the other segment"; an orientation sign is an [int], [0] meaning
    collinear, as the calls [sides.set<0>(0,0)] of [apply] show. *)
Record side_info := SideInfo { sides_0 : Z * Z; sides_1 : Z * Z }.

Definition side_info_default : side_info := SideInfo (0, 0) (0, 0).

(** Modelled from the spec: [sides.set<Which>(first, second)] stores the two
    signs of slot [Which]. *)
Definition set (which : nat) (first second : Z) (s : side_info) : side_info :=
  match which with
  | O => SideInfo (first, second) (sides_1 s)
  | _ => SideInfo (sides_0 s) (first, second)
  end.

(** The two signs of slot [which]. *)
Definition sides_at (which : nat) (s : side_info) : Z * Z :=
  match which with O => sides_0 s | _ => sides_1 s end.

(** Modelled from the spec: [sides.same<Which>()], "both endpoints of one
    segment lie strictly on the same side of the other": the two signs are
    both [1] or both [-1]. *)
Definition same (which : nat) (s : side_info) : bool :=
  fst (sides_at which s) * snd (sides_at which s) =? 1.

(** Modelled from the spec: [sides.collinear()], "collinearity holds iff all
    four reduce to collinear". *)
Definition collinear (s : side_info) : bool :=
  (fst (sides_0 s) =? 0) && (snd (sides_0 s) =? 0)
  && (fst (sides_1 s) =? 0) && (snd (sides_1 s) =? 0).

(** The side strategy [side::apply(p, q, r)]: where [r] lies with respect to
    the directed segment [(p, q)]. [apply] fixes it to [side_by_triangle]
    instantiated at the calculation type of the input segments, which need
    not be the coordinate type of the robust points it is applied to
    (strategies/cartesian/side_by_triangle.hpp is missing); the embedding
    of [apply] therefore takes the strategy as an argument. *)
Definition side_strategy := robust_point -> robust_point -> robust_point -> Z.

(** The cross product [(q - p) x (r - p)]. *)
Definition cross (p q r : robust_point) : Z :=
  (rx q - rx p) * (ry r - ry p) - (ry q - ry p) * (rx r - rx p).

(** Modelled from the spec: the Orientation Predicate of section 4.1, "sign
    of the cross product (q-p)x(r-p), computed in a numeric type wide enough"
    to be exact: [1] left, [-1] right, [0] on the line. *)
Definition side_by_triangle : side_strategy :=
  fun p q r => Z.sgn (cross p q r).

(** ** Position ratios *)

(** Modelled from the spec: [segment_ratio] (the type named by
    [RobustPolicy::segment_ratio_type]; its header is missing). "A rational
    number abstraction (numerator/denominator) ... classified as before-start
    / on-segment / after-end without risky division"; [0] is the start of the
    reference segment and [1] its end. *)
Record segment_ratio := Ratio { numerator : Z; denominator : Z }.

(** Modelled from the spec: the constructor [segment_ratio(n, d)] and
    [assign(n, d)]. The denominator is kept non-negative, so that the
    classification "without risky division" needs comparisons only. *)
Definition ratio_assign (n d : Z) : segment_ratio :=
  if d <? 0 then Ratio (- n) (- d) else Ratio n d.

(** Modelled from the spec: [ratio.left()], the ratio is before the start
    (below [0]). *)
Definition left (r : segment_ratio) : bool := numerator r <? 0.

(** Modelled from the spec: [ratio.right()], the ratio is after the end
    (above [1]). *)
Definition right (r : segment_ratio) : bool := numerator r >? denominator r.

(** Modelled from the spec: [ratio.on_segment()], the ratio is from [0] to
    [1]. *)
Definition on_segment (r : segment_ratio) : bool :=
  (0 <=? numerator r) && (numerator r <=? denominator r).

(** ** Intersection evidence *)

(** Modelled from the spec: [segment_intersection_info] (declared in
    strategies/intersection_result.hpp, missing): "original-precision deltas
    (dx, dy) of both segments, the crossing ratio r, and two Position Ratios
    computed in rescaled coordinates". A field that [apply] declares and has
    not assigned yet holds [None]. *)
Record segment_intersection_info := SInfo {
  dx_a : Q; dy_a : Q;
  dx_b : Q; dy_b : Q;
  r : option Q;
  robust_ra : option segment_ratio;
  robust_rb : option segment_ratio
}.

(** ** The result policy *)

(** The four static members of [Policy] that [apply] and [relate_collinear]
    call; "each call's return value is the algorithm's return value
    verbatim". *)
Inductive return_type :=
| disjoint
| degenerate (s : segment) (a_degenerate : bool)
| segments_crosses (sides : side_info) (sinfo : segment_intersection_info)
                   (a b : segment)
| segments_collinear (a b : segment)
                     (ra_from ra_to rb_from rb_to : segment_ratio).

(** ** Computations that print and may be undefined *)

(** A computation yields [None] when it is undefined (a division by zero),
    and otherwise its value and the lines it wrote to [std::cout]. *)
Definition exec (A : Type) : Type := option (A * list string).

Definition ret {A} (x : A) : exec A := Some (x, []).

Definition bind {A B} (m : exec A) (f : A -> exec B) : exec B :=
  match m with
  | None => None
  | Some (x, out1) =>
      match f x with
      | None => None
      | Some (y, out2) => Some (y, out1 ++ out2)
      end
  end.

Definition cout (line : string) : exec unit := Some (tt, [line]).

Definition undefined {A} : exec A := None.

Notation "x <- m ;; k" := (bind m (fun x => k))
  (at level 61, m at next level, right associativity).
Notation "m ;;; k" := (bind m (fun _ => k))
  (at level 61, right associativity).

(** [n / d] in the promoted type, read in exact arithmetic: the exact
    quotient, undefined for a zero divisor. [Machine.fdiv] is the division
    of [double], with its infinities and NaN. *)
Definition divide (n d : Q) : exec Q :=
  if Qeq_bool d 0 then undefined else ret (n / d)%Q.

(** ** relate_cartesian_segments *)

(** [cramers_rule(dx_a, dy_a, dx_b, dy_b, wx, wy, d, da)]; the two out
    parameters are returned as a pair [(d, da)]. *)
Definition cramers_rule {T} `{Arith T} (dx_a dy_a dx_b dy_b wx wy : T) : T * T :=
  let d := determinant dx_a dy_a dx_b dy_b in
  let da := determinant dx_b dy_b wx wy in
  (d, da).

(** [verify_r(r)]; the reference parameter is returned. *)
Definition verify_r (r : Q) : Q :=
  let zero := 0%Q in
  let one := 1%Q in
  if Qltb r zero || Qltb one r then
    if Qltb one r then one
    else if Qltb r zero then zero
    else r
  else r.

(** [relate_collinear(a, b, robust_policy, oa_1, oa_2, ob_1, ob_2)]:
    "Relate segments known collinear". *)
Definition relate_collinear (a b : segment) (oa_1 oa_2 ob_1 ob_2 : Z)
  : return_type :=
  let length_a := oa_2 - oa_1 in
  let length_b := ob_2 - ob_1 in
  let ra_from := ratio_assign (oa_1 - ob_1) length_b in
  let ra_to := ratio_assign (oa_2 - ob_1) length_b in
  let rb_from := ratio_assign (ob_1 - oa_1) length_a in
  let rb_to := ratio_assign (ob_2 - oa_1) length_a in
  if (left ra_from && left ra_to) || (right ra_from && right ra_to) then
    disjoint
  else
    segments_collinear a b ra_from ra_to rb_from rb_to.

(** [relate_collinear<Dimension>(a, b, robust_policy, robust_a1, ...)] *)
Definition relate_collinear_dim (dimension : nat) (a b : segment)
    (robust_a1 robust_a2 robust_b1 robust_b2 : robust_point) : return_type :=
  relate_collinear a b
    (get dimension robust_a1) (get dimension robust_a2)
    (get dimension robust_b1) (get dimension robust_b2).

(** The local variables of [apply] that the block guarded by
    [if (! collinear)] may change. *)
Record locals := Locals {
  l_sides : side_info;
  l_collinear : bool;
  l_sinfo : segment_intersection_info
}.

(** The block guarded by [if (! collinear)] (lines 186-263), read in exact
    arithmetic; [Machine.apply_not_collinear] is the same block on [double]
    and wrapping [long long]. *)
Definition apply_not_collinear (a b : segment)
    (robust_a1 robust_b1 : robust_point)
    (robust_dx_a robust_dy_a robust_dx_b robust_dy_b : Z)
    (st : locals) : exec locals :=
  let sinfo := l_sinfo st in
  let wx := (get_indexed 0 0 a - get_indexed 0 0 b)%Q in
  let wy := (get_indexed 0 1 a - get_indexed 0 1 b)%Q in
  let '(d, da) :=
    cramers_rule (dx_a sinfo) (dy_a sinfo) (dx_b sinfo) (dy_b sinfo) wx wy in
  let robust_wx := get 0 robust_a1 - get 0 robust_b1 in
  let robust_wy := get 1 robust_a1 - get 1 robust_b1 in
  let '(robust_da0, robust_da) :=
    cramers_rule robust_dx_a robust_dy_a robust_dx_b robust_dy_b
                 robust_wx robust_wy in
  let '(robust_db0, robust_db) :=
    cramers_rule robust_dx_b robust_dy_b robust_dx_a robust_dy_a
                 (get 0 robust_b1 - get 0 robust_a1)
                 (get 1 robust_b1 - get 1 robust_a1) in
  if robust_da0 =? 0 then
    let sides := set 1 0 0 (set 0 0 0 (l_sides st)) in
    cout "Warning: robust_d=0, SHOULD NOT OCCUR" ;;;
    ret (Locals sides true sinfo)
  else
    r0 <- (if Qeq_bool d 0 then
             cout "Warning: d=0" ;;; ret 0%Q
           else
             divide da d) ;;
    let ra := ratio_assign robust_da robust_da0 in
    let rb := ratio_assign robust_db robust_db0 in
    let r1 := verify_r r0 in
    ret (Locals (l_sides st) (l_collinear st)
           (SInfo (dx_a sinfo) (dy_a sinfo) (dx_b sinfo) (dy_b sinfo)
                  (Some r1) (Some ra) (Some rb))).

(** The side evidence of lines 132-136: each endpoint of [a] against [b]
    in slot 0, each endpoint of [b] against [a] in slot 1. *)
Definition side_evidence (side : side_strategy)
    (robust_a1 robust_a2 robust_b1 robust_b2 : robust_point) : side_info :=
  set 1 (side robust_a1 robust_a2 robust_b1)
        (side robust_a1 robust_a2 robust_b2)
    (set 0 (side robust_b1 robust_b2 robust_a1)
           (side robust_b1 robust_b2 robust_a2)
       side_info_default).

(** [apply(a, b, robust_policy, robust_a1, robust_a2, robust_b1, robust_b2)]:
    "the main entry-routine, calculating intersections of segments a / b". *)
Definition apply (side : side_strategy) (a b : segment)
    (robust_a1 robust_a2 robust_b1 robust_b2 : robust_point)
  : exec return_type :=
  let a_is_point := equals_point_point robust_a1 robust_a2 in
  let b_is_point := equals_point_point robust_b1 robust_b2 in
  if a_is_point && b_is_point then
    ret (if equals_point_point robust_a1 robust_b2
         then degenerate a true
         else disjoint)
  else
  let sides := side_evidence side robust_a1 robust_a2 robust_b1 robust_b2 in
  let collinear := collinear sides in
  if same 0 sides || same 1 sides then ret disjoint
  else if a_is_point then ret (degenerate a true)
  else if b_is_point then ret (degenerate b false)
  else
  let sinfo :=
    SInfo (get_indexed 1 0 a - get_indexed 0 0 a)%Q
          (get_indexed 1 1 a - get_indexed 0 1 a)%Q
          (get_indexed 1 0 b - get_indexed 0 0 b)%Q
          (get_indexed 1 1 b - get_indexed 0 1 b)%Q
          None None None in
  let robust_dx_a := get 0 robust_a2 - get 0 robust_a1 in
  let robust_dx_b := get 0 robust_b2 - get 0 robust_b1 in
  let robust_dy_a := get 1 robust_a2 - get 1 robust_a1 in
  let robust_dy_b := get 1 robust_b2 - get 1 robust_b1 in
  st <- (if negb collinear then
           apply_not_collinear a b robust_a1 robust_b1
             robust_dx_a robust_dy_a robust_dx_b robust_dy_b
             (Locals sides collinear sinfo)
         else ret (Locals sides collinear sinfo)) ;;
  if l_collinear st then
    let collinear_use_first :=
      Z.abs robust_dx_a + Z.abs robust_dx_b
      >=? Z.abs robust_dy_a + Z.abs robust_dy_b in
    if collinear_use_first then
      ret (relate_collinear_dim 0 a b robust_a1 robust_a2 robust_b1 robust_b2)
    else
      ret (relate_collinear_dim 1 a b robust_a1 robust_a2 robust_b1 robust_b2)
  else
    ret (segments_crosses (l_sides st) (l_sinfo st) a b).

(** ** Inputs with integer coordinates *)

(** The point [(x, y)]. *)
Definition pt (x y : Z) : point := Point (inject_Z x) (inject_Z y).
(** The segment from [(x1, y1)] to [(x2, y2)]. *)
Definition seg (x1 y1 x2 y2 : Z) : segment := Segment (pt x1 y1) (pt x2 y2).

(** [apply(a, b)], the overload "without robustness checks" (lines 87-99),
    read in exact arithmetic on segments with integer coordinates: the
    endpoints of the segments are passed on as robust points. The side
    strategy is the exact one. Coordinates are unbounded integers here; on
    a fixed-width integer type the overload agrees with this reading only
    while no determinant overflows. *)
Definition relate (x1 y1 x2 y2 u1 v1 u2 v2 : Z) : exec return_type :=
  apply side_by_triangle (seg x1 y1 x2 y2) (seg u1 v1 u2 v2)
    (RPoint x1 y1) (RPoint x2 y2) (RPoint u1 v1) (RPoint u2 v2).

(** ** Names for what the paths of [apply] compute *)

(** The main determinant of the robust deltas ([robust_da0] of [apply]). *)
Definition robust_da0 (robust_a1 robust_a2 robust_b1 robust_b2 : robust_point)
  : Z :=
  determinant (get 0 robust_a2 - get 0 robust_a1)
              (get 1 robust_a2 - get 1 robust_a1)
              (get 0 robust_b2 - get 0 robust_b1)
              (get 1 robust_b2 - get 1 robust_b1).

(** The dimension [apply] hands to [relate_collinear<Dimension>]. *)
Definition collinear_dimension
    (robust_a1 robust_a2 robust_b1 robust_b2 : robust_point) : nat :=
  if Z.abs (get 0 robust_a2 - get 0 robust_a1)
     + Z.abs (get 0 robust_b2 - get 0 robust_b1)
     >=? Z.abs (get 1 robust_a2 - get 1 robust_a1)
         + Z.abs (get 1 robust_b2 - get 1 robust_b1)
  then 0%nat else 1%nat.

(** The determinants of [apply] in original precision, [d] ... *)
Definition original_d (a b : segment) : Q :=
  determinant (get_indexed 1 0 a - get_indexed 0 0 a)%Q
              (get_indexed 1 1 a - get_indexed 0 1 a)%Q
              (get_indexed 1 0 b - get_indexed 0 0 b)%Q
              (get_indexed 1 1 b - get_indexed 0 1 b)%Q.

(** ... and [da]. *)
Definition original_da (a b : segment) : Q :=
  determinant (get_indexed 1 0 b - get_indexed 0 0 b)%Q
              (get_indexed 1 1 b - get_indexed 0 1 b)%Q
              (get_indexed 0 0 a - get_indexed 0 0 b)%Q
              (get_indexed 0 1 a - get_indexed 0 1 b)%Q.

(** The other determinants on the robust points: [robust_da], ... *)
Definition robust_da (robust_a1 robust_a2 robust_b1 robust_b2 : robust_point)
  : Z :=
  determinant (get 0 robust_b2 - get 0 robust_b1)
              (get 1 robust_b2 - get 1 robust_b1)
              (get 0 robust_a1 - get 0 robust_b1)
              (get 1 robust_a1 - get 1 robust_b1).

(** ... [robust_db0] ... *)
Definition robust_db0 (robust_a1 robust_a2 robust_b1 robust_b2 : robust_point)
  : Z :=
  determinant (get 0 robust_b2 - get 0 robust_b1)
              (get 1 robust_b2 - get 1 robust_b1)
              (get 0 robust_a2 - get 0 robust_a1)
              (get 1 robust_a2 - get 1 robust_a1).

(** ... and [robust_db]. *)
Definition robust_db (robust_a1 robust_a2 robust_b1 robust_b2 : robust_point)
  : Z :=
  determinant (get 0 robust_a2 - get 0 robust_a1)
              (get 1 robust_a2 - get 1 robust_a1)
              (get 0 robust_b1 - get 0 robust_a1)
              (get 1 robust_b1 - get 1 robust_a1).

(** The intersection evidence that the crossing path of [apply] has
    assembled when it calls [Policy::segments_crosses]. *)
Definition crossing_info (a b : segment)
    (robust_a1 robust_a2 robust_b1 robust_b2 : robust_point)
  : segment_intersection_info :=
  SInfo (get_indexed 1 0 a - get_indexed 0 0 a)%Q
        (get_indexed 1 1 a - get_indexed 0 1 a)%Q
        (get_indexed 1 0 b - get_indexed 0 0 b)%Q
        (get_indexed 1 1 b - get_indexed 0 1 b)%Q
        (Some (verify_r (if Qeq_bool (original_d a b) 0 then 0%Q
                         else (original_da a b / original_d a b)%Q)))
        (Some (ratio_assign
                 (robust_da robust_a1 robust_a2 robust_b1 robust_b2)
                 (robust_da0 robust_a1 robust_a2 robust_b1 robust_b2)))
        (Some (ratio_assign
                 (robust_db robust_a1 robust_a2 robust_b1 robust_b2)
                 (robust_db0 robust_a1 robust_a2 robust_b1 robust_b2))).

(** What the crossing path has written to [std::cout]. *)
Definition crossing_output (a b : segment) : list string :=
  if Qeq_bool (original_d a b) 0 then ["Warning: d=0"%string] else [].

(** ** Notions the properties are stated with *)

(** [x] lies between [u] and [v], in either order. *)
Definition between (u v x : Z) : bool :=
  (Z.min u v <=? x) && (x <=? Z.max u v).

(** The point [p] lies on the closed segment from [q1] to [q2]. *)
Definition point_on_segment (p q1 q2 : robust_point) : bool :=
  (cross q1 q2 p =? 0)
  && between (rx q1) (rx q2) (rx p) && between (ry q1) (ry q2) (ry p).

(** A calculation type that keeps [mantissa] significant bits: larger
    magnitudes are truncated, as a conversion of an integer to a floating
    point type does. *)
Definition truncate_to (mantissa z : Z) : Z :=
  let m := Z.abs z in
  if m <? 2 ^ mantissa then z
  else
    let e := Z.log2 m + 1 - mantissa in
    Z.sgn z * Z.shiftl (Z.shiftr m e) e.

(** [side_by_triangle] evaluated in such a calculation type: both products
    of the cross product are rounded before they are subtracted. *)
Definition side_by_triangle_rounded (mantissa : Z) : side_strategy :=
  fun p q x =>
    Z.sgn (truncate_to mantissa ((rx q - rx p) * (ry x - ry p))
           - truncate_to mantissa ((ry q - ry p) * (rx x - rx p))).

(** The 1-D spans [[min u1 u2, max u1 u2]] and [[min v1 v2, max v1 v2]]
    have a common point. *)
Definition spans_intersect (u1 u2 v1 v2 : Z) : bool :=
  Z.max (Z.min u1 u2) (Z.min v1 v2) <=? Z.min (Z.max u1 u2) (Z.max v1 v2).


(** The point [(x, y)] of the plane lies on the closed segment from [p1] to
    [p2]. *)
Definition on_closed_segment (p1 p2 : robust_point) (x y : Q) : Prop :=
  (inject_Z (rx p2 - rx p1) * (y - inject_Z (ry p1))
   - inject_Z (ry p2 - ry p1) * (x - inject_Z (rx p1)) == 0)%Q
  /\ (inject_Z (Z.min (rx p1) (rx p2)) <= x <= inject_Z (Z.max (rx p1) (rx p2)))%Q
  /\ (inject_Z (Z.min (ry p1) (ry p2)) <= y <= inject_Z (Z.max (ry p1) (ry p2)))%Q.

(** The two segments have an endpoint in common. *)
Definition share_endpoint (p1 p2 q1 q2 : robust_point) : Prop :=
  p1 = q1 \/ p1 = q2 \/ p2 = q1 \/ p2 = q2.

(** The two segments share the endpoint [e] and have no other common
    point. *)
Definition touch_only_at (e p1 p2 q1 q2 : robust_point) : Prop :=
  (e = p1 \/ e = p2) /\ (e = q1 \/ e = q2)
  /\ forall x y,
       on_closed_segment p1 p2 x y -> on_closed_segment q1 q2 x y ->
       (x == inject_Z (rx e))%Q /\ (y == inject_Z (ry e))%Q.

(** The topological classification an outcome stands for. *)
Inductive classification :=
| is_disjoint | is_degenerate | is_crossing | is_collinear.

Definition classify (outcome : return_type) : classification :=
  match outcome with
  | disjoint => is_disjoint
  | degenerate _ _ => is_degenerate
  | segments_crosses _ _ _ _ => is_crossing
  | segments_collinear _ _ _ _ _ _ => is_collinear
  end.


(** ** Points of the plane along a segment *)

(** The rational number a ratio denotes. *)
Definition ratio_Q (q : segment_ratio) : Q :=
  inject_Z (numerator q) / inject_Z (denominator q).

(** The coordinates of the point at parameter [t] along the segment from
    [p1] ([t = 0]) to [p2] ([t = 1]). *)
Definition point_x (p1 p2 : robust_point) (t : Q) : Q :=
  inject_Z (rx p1) + t * inject_Z (rx p2 - rx p1).

Definition point_y (p1 p2 : robust_point) (t : Q) : Q :=
  inject_Z (ry p1) + t * inject_Z (ry p2 - ry p1).

(** The closed segments from [p1] to [p2] and from [q1] to [q2] have a point
    in common. *)
Definition segments_meet (p1 p2 q1 q2 : robust_point) : Prop :=
  exists ta tb : Q,
    (0 <= ta <= 1)%Q /\ (0 <= tb <= 1)%Q
    /\ (point_x p1 p2 ta == point_x q1 q2 tb)%Q
    /\ (point_y p1 p2 ta == point_y q1 q2 tb)%Q.

(** ** The decision [apply] takes, as a function of the robust points *)

(** The classification [relate_collinear] arrives at. *)
Definition collinear_classification (oa_1 oa_2 ob_1 ob_2 : Z)
  : classification :=
  let ra_from := ratio_assign (oa_1 - ob_1) (ob_2 - ob_1) in
  let ra_to := ratio_assign (oa_2 - ob_1) (ob_2 - ob_1) in
  if (left ra_from && left ra_to) || (right ra_from && right ra_to)
  then is_disjoint else is_collinear.

(** The classification [apply] arrives at: the tests of [apply] in their
    order, without the evidence. *)
Definition classification_of (side : side_strategy)
    (robust_a1 robust_a2 robust_b1 robust_b2 : robust_point)
  : classification :=
  let a_is_point := equals_point_point robust_a1 robust_a2 in
  let b_is_point := equals_point_point robust_b1 robust_b2 in
  let sides := side_evidence side robust_a1 robust_a2 robust_b1 robust_b2 in
  let dimension :=
    collinear_dimension robust_a1 robust_a2 robust_b1 robust_b2 in
  if a_is_point && b_is_point then
    if equals_point_point robust_a1 robust_b2 then is_degenerate
    else is_disjoint
  else if same 0 sides || same 1 sides then is_disjoint
  else if a_is_point || b_is_point then is_degenerate
  else if collinear sides
          || (robust_da0 robust_a1 robust_a2 robust_b1 robust_b2 =? 0)
  then collinear_classification
         (get dimension robust_a1) (get dimension robust_a2)
         (get dimension robust_b1) (get dimension robust_b2)
  else is_crossing.

(** The point [p] moved by the vector [t]. *)
Definition translate (t p : robust_point) : robust_point :=
  RPoint (rx p + rx t) (ry p + ry t).


(** ** Machine arithmetic

    The instantiation of the templates the library ships: [double]
    coordinates for the segments ([coordinate_type] and [promoted_type] are
    IEEE 754 binary64, with its infinities, NaN and rounding) and
    [long long] coordinates for the robust points, whose products and
    differences wrap around at 64 bits. The definitions above are the same
    code read in exact arithmetic; on robust points within [in_range] both
    readings compute the same robust determinants, side values and ratios. *)

Module Machine.

(** [double] and its operations. *)
Definition double : Type := spec_float.
Definition fsub : double -> double -> double := SFsub 53 1024.
Definition fmul : double -> double -> double := SFmul 53 1024.
Definition fdiv : double -> double -> double := SFdiv 53 1024.
Definition zero : double := S754_zero false.
Definition one : double := S754_finite false 4503599627370496 (-52).

#[global] Instance Arith_double : Arith double :=
  {| a_sub := fsub; a_mul := fmul |}.

(** A 64-bit two's complement result. *)
Definition wrap (z : Z) : Z :=
  (z + 9223372036854775808) mod 18446744073709551616 - 9223372036854775808.

Definition rsub (x y : Z) : Z := wrap (x - y).
Definition rmul (x y : Z) : Z := wrap (x * y).
Definition radd (x y : Z) : Z := wrap (x + y).

(** [math::abs] on [long long]. *)
Definition rabs (x : Z) : Z := if x <? 0 then wrap (- x) else x.

Definition Arith_long_long : Arith Z := {| a_sub := rsub; a_mul := rmul |}.

Record point := Point { px : double; py : double }.

Record segment := Segment { seg_first : point; seg_second : point }.

(** [get<Index, Dimension>(s)] *)
Definition get_indexed (index dimension : nat) (s : segment) : double :=
  let p := match index with O => seg_first s | _ => seg_second s end in
  match dimension with O => px p | _ => py p end.

(** Modelled from the spec: [segment_ratio(n, d)] and [assign(n, d)] on
    [long long]; the sign change of a negative denominator wraps. *)
Definition ratio_assign (n d : Z) : segment_ratio :=
  if d <? 0 then Ratio (wrap (- n)) (wrap (- d)) else Ratio n d.

(** Modelled from the spec: [segment_intersection_info] with [double]
    deltas and ratio; an unassigned field holds [None]. *)
Record segment_intersection_info := SInfo {
  dx_a : double; dy_a : double;
  dx_b : double; dy_b : double;
  r : option double;
  robust_ra : option segment_ratio;
  robust_rb : option segment_ratio
}.

(** The free result policy, as above. *)
Inductive return_type :=
| disjoint
| degenerate (s : segment) (a_degenerate : bool)
| segments_crosses (sides : side_info) (sinfo : segment_intersection_info)
                   (a b : segment)
| segments_collinear (a b : segment)
                     (ra_from ra_to rb_from rb_to : segment_ratio).

(** [verify_r(r)]; every comparison with a NaN is false. *)
Definition verify_r (r : double) : double :=
  if SFltb r zero || SFltb one r then
    if SFltb one r then one
    else if SFltb r zero then zero
    else r
  else r.

(** [relate_collinear(a, b, robust_policy, oa_1, oa_2, ob_1, ob_2)] *)
Definition relate_collinear (a b : segment) (oa_1 oa_2 ob_1 ob_2 : Z)
  : return_type :=
  let length_a := rsub oa_2 oa_1 in
  let length_b := rsub ob_2 ob_1 in
  let ra_from := ratio_assign (rsub oa_1 ob_1) length_b in
  let ra_to := ratio_assign (rsub oa_2 ob_1) length_b in
  let rb_from := ratio_assign (rsub ob_1 oa_1) length_a in
  let rb_to := ratio_assign (rsub ob_2 oa_1) length_a in
  if (left ra_from && left ra_to) || (right ra_from && right ra_to) then
    disjoint
  else
    segments_collinear a b ra_from ra_to rb_from rb_to.

(** [relate_collinear<Dimension>(a, b, robust_policy, robust_a1, ...)] *)
Definition relate_collinear_dim (dimension : nat) (a b : segment)
    (robust_a1 robust_a2 robust_b1 robust_b2 : robust_point) : return_type :=
  relate_collinear a b
    (get dimension robust_a1) (get dimension robust_a2)
    (get dimension robust_b1) (get dimension robust_b2).

Record locals := Locals {
  l_sides : side_info;
  l_collinear : bool;
  l_sinfo : segment_intersection_info
}.

(** The block guarded by [if (! collinear)] (lines 186-263). *)
Definition apply_not_collinear (a b : segment)
    (robust_a1 robust_b1 : robust_point)
    (robust_dx_a robust_dy_a robust_dx_b robust_dy_b : Z)
    (st : locals) : exec locals :=
  let sinfo := l_sinfo st in
  let wx := fsub (get_indexed 0 0 a) (get_indexed 0 0 b) in
  let wy := fsub (get_indexed 0 1 a) (get_indexed 0 1 b) in
  let '(d, da) :=
    cramers_rule (dx_a sinfo) (dy_a sinfo) (dx_b sinfo) (dy_b sinfo) wx wy in
  let robust_wx := rsub (get 0 robust_a1) (get 0 robust_b1) in
  let robust_wy := rsub (get 1 robust_a1) (get 1 robust_b1) in
  let '(robust_da0, robust_da) :=
    cramers_rule (H := Arith_long_long)
      robust_dx_a robust_dy_a robust_dx_b robust_dy_b robust_wx robust_wy in
  let '(robust_db0, robust_db) :=
    cramers_rule (H := Arith_long_long)
      robust_dx_b robust_dy_b robust_dx_a robust_dy_a
      (rsub (get 0 robust_b1) (get 0 robust_a1))
      (rsub (get 1 robust_b1) (get 1 robust_a1)) in
  if robust_da0 =? 0 then
    let sides := set 1 0 0 (set 0 0 0 (l_sides st)) in
    cout "Warning: robust_d=0, SHOULD NOT OCCUR" ;;;
    ret (Locals sides true sinfo)
  else
    r0 <- (if SFeqb d zero then
             cout "Warning: d=0" ;;; ret zero
           else
             ret (fdiv da d)) ;;
    let ra := ratio_assign robust_da robust_da0 in
    let rb := ratio_assign robust_db robust_db0 in
    let r1 := verify_r r0 in
    ret (Locals (l_sides st) (l_collinear st)
           (SInfo (dx_a sinfo) (dy_a sinfo) (dx_b sinfo) (dy_b sinfo)
                  (Some r1) (Some ra) (Some rb))).

(** [apply(a, b, robust_policy, robust_a1, robust_a2, robust_b1, robust_b2)] *)
Definition apply (side : side_strategy) (a b : segment)
    (robust_a1 robust_a2 robust_b1 robust_b2 : robust_point)
  : exec return_type :=
  let a_is_point := equals_point_point robust_a1 robust_a2 in
  let b_is_point := equals_point_point robust_b1 robust_b2 in
  if a_is_point && b_is_point then
    ret (if equals_point_point robust_a1 robust_b2
         then degenerate a true
         else disjoint)
  else
  let sides := side_evidence side robust_a1 robust_a2 robust_b1 robust_b2 in
  let collinear := collinear sides in
  if same 0 sides || same 1 sides then ret disjoint
  else if a_is_point then ret (degenerate a true)
  else if b_is_point then ret (degenerate b false)
  else
  let sinfo :=
    {| dx_a := fsub (get_indexed 1 0 a) (get_indexed 0 0 a);
       dx_b := fsub (get_indexed 1 0 b) (get_indexed 0 0 b);
       dy_a := fsub (get_indexed 1 1 a) (get_indexed 0 1 a);
       dy_b := fsub (get_indexed 1 1 b) (get_indexed 0 1 b);
       r := None; robust_ra := None; robust_rb := None |} in
  let robust_dx_a := rsub (get 0 robust_a2) (get 0 robust_a1) in
  let robust_dx_b := rsub (get 0 robust_b2) (get 0 robust_b1) in
  let robust_dy_a := rsub (get 1 robust_a2) (get 1 robust_a1) in
  let robust_dy_b := rsub (get 1 robust_b2) (get 1 robust_b1) in
  st <- (if negb collinear then
           apply_not_collinear a b robust_a1 robust_b1
             robust_dx_a robust_dy_a robust_dx_b robust_dy_b
             (Locals sides collinear sinfo)
         else ret (Locals sides collinear sinfo)) ;;
  if l_collinear st then
    let collinear_use_first :=
      radd (rabs robust_dx_a) (rabs robust_dx_b)
      >=? radd (rabs robust_dy_a) (rabs robust_dy_b) in
    if collinear_use_first then
      ret (relate_collinear_dim 0 a b robust_a1 robust_a2 robust_b1 robust_b2)
    else
      ret (relate_collinear_dim 1 a b robust_a1 robust_a2 robust_b1 robust_b2)
  else
    ret (segments_crosses (l_sides st) (l_sinfo st) a b).

(** *** Names for what the paths of [apply] compute *)

(** The robust deltas as [apply] computes them. *)
Definition robust_dx (p1 p2 : robust_point) : Z := rsub (get 0 p2) (get 0 p1).
Definition robust_dy (p1 p2 : robust_point) : Z := rsub (get 1 p2) (get 1 p1).

(** The computed [robust_da0], [robust_da], [robust_db0], [robust_db]. *)
Definition robust_da0 (p1 p2 q1 q2 : robust_point) : Z :=
  determinant (H := Arith_long_long)
    (robust_dx p1 p2) (robust_dy p1 p2) (robust_dx q1 q2) (robust_dy q1 q2).

Definition robust_da (p1 p2 q1 q2 : robust_point) : Z :=
  determinant (H := Arith_long_long)
    (robust_dx q1 q2) (robust_dy q1 q2)
    (rsub (get 0 p1) (get 0 q1)) (rsub (get 1 p1) (get 1 q1)).

Definition robust_db0 (p1 p2 q1 q2 : robust_point) : Z :=
  determinant (H := Arith_long_long)
    (robust_dx q1 q2) (robust_dy q1 q2) (robust_dx p1 p2) (robust_dy p1 p2).

Definition robust_db (p1 p2 q1 q2 : robust_point) : Z :=
  determinant (H := Arith_long_long)
    (robust_dx p1 p2) (robust_dy p1 p2)
    (rsub (get 0 q1) (get 0 p1)) (rsub (get 1 q1) (get 1 p1)).

(** The dimension [apply] hands to [relate_collinear<Dimension>]. *)
Definition collinear_dimension (p1 p2 q1 q2 : robust_point) : nat :=
  if radd (rabs (robust_dx p1 p2)) (rabs (robust_dx q1 q2))
     >=? radd (rabs (robust_dy p1 p2)) (rabs (robust_dy q1 q2))
  then 0%nat else 1%nat.

(** The determinants [d] and [da] in [double]. *)
Definition original_d (a b : segment) : double :=
  determinant (fsub (get_indexed 1 0 a) (get_indexed 0 0 a))
              (fsub (get_indexed 1 1 a) (get_indexed 0 1 a))
              (fsub (get_indexed 1 0 b) (get_indexed 0 0 b))
              (fsub (get_indexed 1 1 b) (get_indexed 0 1 b)).

Definition original_da (a b : segment) : double :=
  determinant (fsub (get_indexed 1 0 b) (get_indexed 0 0 b))
              (fsub (get_indexed 1 1 b) (get_indexed 0 1 b))
              (fsub (get_indexed 0 0 a) (get_indexed 0 0 b))
              (fsub (get_indexed 0 1 a) (get_indexed 0 1 b)).

(** The quotient [verify_r] is applied to. *)
Definition raw_r (a b : segment) : double :=
  if SFeqb (original_d a b) zero then zero
  else fdiv (original_da a b) (original_d a b).

(** The intersection evidence of the crossing path. *)
Definition crossing_info (a b : segment) (p1 p2 q1 q2 : robust_point)
  : segment_intersection_info :=
  {| dx_a := fsub (get_indexed 1 0 a) (get_indexed 0 0 a);
     dy_a := fsub (get_indexed 1 1 a) (get_indexed 0 1 a);
     dx_b := fsub (get_indexed 1 0 b) (get_indexed 0 0 b);
     dy_b := fsub (get_indexed 1 1 b) (get_indexed 0 1 b);
     r := Some (verify_r (raw_r a b));
     robust_ra := Some (ratio_assign (robust_da p1 p2 q1 q2)
                                     (robust_da0 p1 p2 q1 q2));
     robust_rb := Some (ratio_assign (robust_db p1 p2 q1 q2)
                                     (robust_db0 p1 p2 q1 q2)) |}.

(** What the crossing path has written to [std::cout]. *)
Definition crossing_output (a b : segment) : list string :=
  if SFeqb (original_d a b) zero then ["Warning: d=0"%string] else [].

(** *** Notions the properties are stated with *)

(** [q] is a number from 0 to 1. *)
Definition in_unit (q : double) : bool := SFleb zero q && SFleb q one.

Definition is_nan (q : double) : bool :=
  match q with S754_nan => true | _ => false end.

(** Robust coordinates below 2^30 in magnitude: differences stay below
    2^31 and the determinants below 2^63, so that nothing wraps. *)
Definition in_range (p : robust_point) : Prop :=
  - 1073741824 < rx p < 1073741824 /\ - 1073741824 < ry p < 1073741824.

(** The value [2^k] as a [double], for [-1022 <= k <= 1023]. *)
Definition pow2 (k : Z) : double := S754_finite false 4503599627370496 (k - 52).

(** The [double] 10: 1.25 * 2^3. *)
Definition ten : double := S754_finite false 5629499534213120 (-49).

(** The segment from [(x1, y1)] to [(x2, y2)]. *)
Definition seg (x1 y1 x2 y2 : double) : segment :=
  Segment (Point x1 y1) (Point x2 y2).

End Machine.

(** The point [e] is the only point the two closed segments have in
    common, if they have one. *)
Definition meet_only_at (e p1 p2 q1 q2 : robust_point) : Prop :=
  forall ta tb : Q,
    (0 <= ta <= 1)%Q -> (0 <= tb <= 1)%Q ->
    (point_x p1 p2 ta == point_x q1 q2 tb)%Q ->
    (point_y p1 p2 ta == point_y q1 q2 tb)%Q ->
    (point_x p1 p2 ta == inject_Z (rx e))%Q
    /\ (point_y p1 p2 ta == inject_Z (ry e))%Q.

(** The ratio is 0 or 1: an end of the reference segment. *)
Definition at_end (q : segment_ratio) : Prop :=
  numerator q = 0 \/ numerator q = denominator q.


(** ** Proof automation *)

(** Expose the arithmetic of the robust determinants. *)
Ltac unfold_robust :=
  unfold robust_da0, robust_da, robust_db0, robust_db, collinear_dimension,
    cross, determinant, get in *;
  cbn [a_sub a_mul Arith_Z] in *.

(** Case analysis on every integer comparison in sight. *)
Ltac decide_comparisons :=
  repeat match goal with
         | |- context [?x <? ?y] => destruct (Z.ltb_spec x y)
         | |- context [?x <=? ?y] => destruct (Z.leb_spec x y)
         | H : context [?x <? ?y] |- _ => destruct (Z.ltb_spec x y)
         | H : context [?x <=? ?y] |- _ => destruct (Z.leb_spec x y)
         end.

(** * Properties *)

(** ** Basic facts *)

Lemma equals_point_point_iff p q : equals_point_point p q = true <-> p = q.
Proof.
  unfold equals_point_point. destruct p as [x y], q as [u v]; simpl.
  rewrite andb_true_iff, !Z.eqb_eq. split.
  - intros [-> ->]. reflexivity.
  - intros E. injection E as -> ->. split; reflexivity.
Qed.

Lemma equals_point_point_refl p : equals_point_point p p = true.
Proof. apply equals_point_point_iff. reflexivity. Qed.


Lemma cross_degenerate p x : cross p p x = 0.
Proof. unfold cross. lia. Qed.

Lemma side_by_triangle_degenerate p x : side_by_triangle p p x = 0.
Proof. unfold side_by_triangle. rewrite cross_degenerate. reflexivity. Qed.

Lemma side_by_triangle_zero p q x :
  side_by_triangle p q x = 0 <-> cross p q x = 0.
Proof. unfold side_by_triangle. apply Z.sgn_null_iff. Qed.


(** ** The paths through [apply] *)

Section Paths.

Variable side : side_strategy.
Variables a b : segment.
Variables robust_a1 robust_a2 robust_b1 robust_b2 : robust_point.

Let sides := side_evidence side robust_a1 robust_a2 robust_b1 robust_b2.
Let a_is_point := equals_point_point robust_a1 robust_a2.
Let b_is_point := equals_point_point robust_b1 robust_b2.

Lemma apply_both_points :
  a_is_point = true -> b_is_point = true ->
  apply side a b robust_a1 robust_a2 robust_b1 robust_b2
  = ret (if equals_point_point robust_a1 robust_b2
         then degenerate a true else disjoint).
Proof.
  unfold a_is_point, b_is_point, apply. intros -> ->. reflexivity.
Qed.

Lemma apply_same_side :
  a_is_point && b_is_point = false ->
  same 0 sides || same 1 sides = true ->
  apply side a b robust_a1 robust_a2 robust_b1 robust_b2 = ret disjoint.
Proof.
  unfold a_is_point, b_is_point, sides, apply. intros -> ->. reflexivity.
Qed.

Lemma apply_a_point :
  a_is_point = true -> b_is_point = false ->
  same 0 sides || same 1 sides = false ->
  apply side a b robust_a1 robust_a2 robust_b1 robust_b2
  = ret (degenerate a true).
Proof.
  unfold a_is_point, b_is_point, sides, apply. intros -> -> ->. reflexivity.
Qed.

Lemma apply_b_point :
  a_is_point = false -> b_is_point = true ->
  same 0 sides || same 1 sides = false ->
  apply side a b robust_a1 robust_a2 robust_b1 robust_b2
  = ret (degenerate b false).
Proof.
  unfold a_is_point, b_is_point, sides, apply. intros -> -> ->. reflexivity.
Qed.

Lemma apply_collinear :
  a_is_point = false -> b_is_point = false ->
  same 0 sides || same 1 sides = false ->
  collinear sides = true ->
  apply side a b robust_a1 robust_a2 robust_b1 robust_b2
  = ret (relate_collinear_dim
           (collinear_dimension robust_a1 robust_a2 robust_b1 robust_b2)
           a b robust_a1 robust_a2 robust_b1 robust_b2).
Proof.
  unfold a_is_point, b_is_point, sides, apply, collinear_dimension.
  intros -> -> -> ->. simpl.
  destruct (_ >=? _); reflexivity.
Qed.

Lemma apply_forced_collinear :
  a_is_point = false -> b_is_point = false ->
  same 0 sides || same 1 sides = false ->
  collinear sides = false ->
  robust_da0 robust_a1 robust_a2 robust_b1 robust_b2 = 0 ->
  apply side a b robust_a1 robust_a2 robust_b1 robust_b2
  = Some (relate_collinear_dim
            (collinear_dimension robust_a1 robust_a2 robust_b1 robust_b2)
            a b robust_a1 robust_a2 robust_b1 robust_b2,
          ["Warning: robust_d=0, SHOULD NOT OCCUR"%string]).
Proof.
  unfold a_is_point, b_is_point, sides, apply, collinear_dimension,
    robust_da0.
  intros -> -> -> -> E. cbn [andb orb negb].
  unfold apply_not_collinear, cramers_rule. cbv beta iota zeta.
  rewrite E. cbn [Z.eqb bind ret cout l_collinear app].
  destruct (_ >=? _); reflexivity.
Qed.

Lemma apply_crossing :
  a_is_point = false -> b_is_point = false ->
  same 0 sides || same 1 sides = false ->
  collinear sides = false ->
  robust_da0 robust_a1 robust_a2 robust_b1 robust_b2 <> 0 ->
  apply side a b robust_a1 robust_a2 robust_b1 robust_b2
  = Some (segments_crosses sides
            (crossing_info a b robust_a1 robust_a2 robust_b1 robust_b2)
            a b,
          crossing_output a b).
Proof.
  unfold a_is_point, b_is_point, sides, apply, robust_da0.
  intros -> -> -> -> E. cbn [andb orb negb].
  unfold apply_not_collinear, cramers_rule. cbv beta iota zeta.
  apply Z.eqb_neq in E. rewrite E.
  unfold crossing_info, crossing_output, original_d, original_da, divide.
  cbn [l_sinfo l_sides l_collinear dx_a dy_a dx_b dy_b].
  destruct (Qeq_bool _ 0); reflexivity.
Qed.

End Paths.

Lemma same_side_of_point p q1 q2 :
  same 0 (side_evidence side_by_triangle p p q1 q2)
  || same 1 (side_evidence side_by_triangle p p q1 q2) = true ->
  cross q1 q2 p <> 0.
Proof.
  unfold side_evidence, same, set. cbn [sides_at sides_0 sides_1 fst snd].
  rewrite !side_by_triangle_degenerate. cbn [Z.mul Z.eqb orb].
  rewrite orb_false_r, Z.eqb_eq. unfold side_by_triangle. intros H E.
  rewrite E in H. discriminate H.
Qed.

(** ** Degenerate inputs and side rejection *)

(** C5. When both segments are single points in rescaled coordinates [apply]
    returns [Policy::degenerate(a, true)] if the two points coincide and
    [Policy::disjoint()] if they differ, and nothing else, whatever the side
    strategy. *)
Theorem both_degenerate_outcome (side : side_strategy) (a b : segment)
    (robust_a1 robust_a2 robust_b1 robust_b2 : robust_point) :
  equals_point_point robust_a1 robust_a2 = true ->
  equals_point_point robust_b1 robust_b2 = true ->
  apply side a b robust_a1 robust_a2 robust_b1 robust_b2
  = ret (if equals_point_point robust_a1 robust_b1
         then degenerate a true else disjoint)
  /\ (robust_a1 = robust_b1 ->
      apply side a b robust_a1 robust_a2 robust_b1 robust_b2
      = ret (degenerate a true))
  /\ (robust_a1 <> robust_b1 ->
      apply side a b robust_a1 robust_a2 robust_b1 robust_b2 = ret disjoint).
Proof.
  intros Ha Hb.
  assert (E : apply side a b robust_a1 robust_a2 robust_b1 robust_b2
              = ret (if equals_point_point robust_a1 robust_b1
                     then degenerate a true else disjoint)).
  { rewrite apply_both_points by assumption.
    apply equals_point_point_iff in Hb. rewrite <- Hb. reflexivity. }
  split; [exact E|]. rewrite E. split.
  - intros ->. rewrite equals_point_point_refl. reflexivity.
  - intros N. destruct (equals_point_point robust_a1 robust_b1) eqn:Q.
    + apply equals_point_point_iff in Q. contradiction.
    + reflexivity.
Qed.

Lemma both_degenerate_outcome_witness :
  apply side_by_triangle (seg 3 4 3 4) (seg 7 1 7 1)
    (RPoint 3 4) (RPoint 3 4) (RPoint 7 1) (RPoint 7 1) = ret disjoint.
Proof.
  apply (both_degenerate_outcome side_by_triangle (seg 3 4 3 4) (seg 7 1 7 1)
           (RPoint 3 4) (RPoint 3 4) (RPoint 7 1) (RPoint 7 1));
    [reflexivity | reflexivity | discriminate].
Defined.

(** C4. When the side evidence (exact orientation signs of the rescaled
    points) has both endpoints of one segment strictly on the same side of
    the other segment, [apply] returns [Policy::disjoint()]; it has printed
    nothing and no determinant or ratio is part of what it returns. *)
Theorem same_side_is_disjoint (a b : segment)
    (robust_a1 robust_a2 robust_b1 robust_b2 : robust_point) :
  same 0 (side_evidence side_by_triangle robust_a1 robust_a2 robust_b1 robust_b2)
  || same 1 (side_evidence side_by_triangle robust_a1 robust_a2 robust_b1 robust_b2)
  = true ->
  apply side_by_triangle a b robust_a1 robust_a2 robust_b1 robust_b2
  = Some (disjoint, []).
Proof.
  intros H.
  destruct (equals_point_point robust_a1 robust_a2
            && equals_point_point robust_b1 robust_b2) eqn:E.
  - apply andb_true_iff in E as [Ea Eb].
    apply equals_point_point_iff in Ea, Eb. subst robust_a2 robust_b2.
    apply same_side_of_point in H.
    rewrite cross_degenerate in H. contradiction.
  - apply apply_same_side; assumption.
Qed.

Lemma same_side_is_disjoint_witness :
  relate 0 0 10 0 0 1 10 1 = Some (disjoint, []).
Proof.
  apply (same_side_is_disjoint (seg 0 0 10 0) (seg 0 1 10 1)
           (RPoint 0 0) (RPoint 10 0) (RPoint 0 1) (RPoint 10 1)).
  reflexivity.
Defined.

Lemma same_side_a_point p q1 q2 :
  same 0 (side_evidence side_by_triangle p p q1 q2)
  || same 1 (side_evidence side_by_triangle p p q1 q2) = false
  <-> cross q1 q2 p = 0.
Proof.
  split.
  - intros H. destruct (Z.eq_dec (cross q1 q2 p) 0) as [E|N]; [exact E|].
    exfalso. revert H. unfold side_evidence, same, set.
    cbn [sides_at sides_0 sides_1 fst snd]. unfold side_by_triangle.
    destruct (Z.sgn_spec (cross q1 q2 p)) as [[_ ->]|[[? _]|[_ ->]]];
      [discriminate | lia | discriminate].
  - intros E. destruct (_ || _) eqn:H; [|reflexivity].
    apply same_side_of_point in H. contradiction.
Qed.

Lemma same_side_b_point p1 p2 q :
  same 0 (side_evidence side_by_triangle p1 p2 q q)
  || same 1 (side_evidence side_by_triangle p1 p2 q q) = false
  <-> cross p1 p2 q = 0.
Proof.
  rewrite <- (same_side_a_point q p1 p2).
  unfold side_evidence, same, set. cbn [sides_at sides_0 sides_1 fst snd].
  rewrite orb_comm. reflexivity.
Qed.

Lemma point_on_segment_cross p q1 q2 :
  point_on_segment p q1 q2 = true -> cross q1 q2 p = 0.
Proof.
  unfold point_on_segment. rewrite !andb_true_iff, Z.eqb_eq. tauto.
Qed.

(** C6. Exactly one of the two segments is a single point in rescaled
    coordinates. The pair survives side rejection exactly when the point lies
    on the line of the other segment, and [apply] then returns
    [Policy::degenerate] with the degenerate input and the flag [true] when
    this is the first segment, [false] when it is the second. In particular a
    point on the other segment is never classified disjoint, and
    A=(0,0)-(0,0), B=(0,0)-(10,0) gives [degenerate(A, true)]. *)
Theorem one_degenerate_outcome (a b : segment)
    (robust_a1 robust_a2 robust_b1 robust_b2 : robust_point) :
  equals_point_point robust_a1 robust_a2
  <> equals_point_point robust_b1 robust_b2 ->
  let sides :=
    side_evidence side_by_triangle robust_a1 robust_a2 robust_b1 robust_b2 in
  let a_is_point := equals_point_point robust_a1 robust_a2 in
  let outcome := if a_is_point then degenerate a true else degenerate b false in
  (same 0 sides || same 1 sides = false
   <-> (if a_is_point then cross robust_b1 robust_b2 robust_a1
        else cross robust_a1 robust_a2 robust_b1) = 0)
  /\ (same 0 sides || same 1 sides = false ->
      apply side_by_triangle a b robust_a1 robust_a2 robust_b1 robust_b2
      = ret outcome)
  /\ ((if a_is_point then point_on_segment robust_a1 robust_b1 robust_b2
       else point_on_segment robust_b1 robust_a1 robust_a2) = true ->
      apply side_by_triangle a b robust_a1 robust_a2 robust_b1 robust_b2
      = ret outcome
      /\ apply side_by_triangle a b robust_a1 robust_a2 robust_b1 robust_b2
         <> ret disjoint)
  /\ relate 0 0 0 0 0 0 10 0 = ret (degenerate (seg 0 0 0 0) true).
Proof.
  intros N sides a_is_point outcome.
  assert (L : same 0 sides || same 1 sides = false
              <-> (if a_is_point then cross robust_b1 robust_b2 robust_a1
                   else cross robust_a1 robust_a2 robust_b1) = 0).
  { subst sides a_is_point.
    destruct (equals_point_point robust_a1 robust_a2) eqn:Ea.
    - apply equals_point_point_iff in Ea. subst robust_a2.
      apply same_side_a_point.
    - destruct (equals_point_point robust_b1 robust_b2) eqn:Eb;
        [|contradiction].
      apply equals_point_point_iff in Eb. subst robust_b2.
      apply same_side_b_point. }
  assert (R : same 0 sides || same 1 sides = false ->
              apply side_by_triangle a b robust_a1 robust_a2 robust_b1 robust_b2
              = ret outcome).
  { intros H. subst sides a_is_point outcome.
    destruct (equals_point_point robust_a1 robust_a2) eqn:Ea.
    - apply apply_a_point; [exact Ea | | exact H].
      destruct (equals_point_point robust_b1 robust_b2);
        [contradiction | reflexivity].
    - apply apply_b_point; [exact Ea | | exact H].
      destruct (equals_point_point robust_b1 robust_b2);
        [reflexivity | contradiction]. }
  split; [exact L|]. split; [exact R|]. split; [|reflexivity].
  intros On.
  assert (E : apply side_by_triangle a b robust_a1 robust_a2 robust_b1 robust_b2
              = ret outcome).
  { apply R, L. destruct a_is_point;
      apply point_on_segment_cross in On; exact On. }
  split; [exact E|]. rewrite E. subst outcome.
  destruct a_is_point; discriminate.
Qed.

Lemma one_degenerate_outcome_witness :
  apply side_by_triangle (seg 5 0 5 0) (seg 0 0 10 0)
    (RPoint 5 0) (RPoint 5 0) (RPoint 0 0) (RPoint 10 0)
  = ret (degenerate (seg 5 0 5 0) true).
Proof.
  destruct (one_degenerate_outcome (seg 5 0 5 0) (seg 0 0 10 0)
              (RPoint 5 0) (RPoint 5 0) (RPoint 0 0) (RPoint 10 0))
    as (_ & H & _).
  - discriminate.
  - apply H. reflexivity.
Defined.

(** ** The crossing ratio *)

Lemma Qltb_lt x y : Qltb x y = true <-> (x < y)%Q.
Proof.
  unfold Qltb. rewrite negb_true_iff. split.
  - intros H. apply Qnot_le_lt. intros L.
    apply Qle_bool_iff in L. congruence.
  - intros H. destruct (Qle_bool y x) eqn:L; [|reflexivity].
    apply Qle_bool_iff in L. exfalso. exact (Qlt_not_le _ _ H L).
Qed.

Lemma Qltb_ge x y : Qltb x y = false <-> (y <= x)%Q.
Proof.
  unfold Qltb. rewrite negb_false_iff. apply Qle_bool_iff.
Qed.

Lemma verify_r_above x : (1 < x)%Q -> verify_r x = 1%Q.
Proof.
  intros H. unfold verify_r. apply Qltb_lt in H. rewrite H, orb_true_r.
  reflexivity.
Qed.

Lemma verify_r_below x : (x < 0)%Q -> verify_r x = 0%Q.
Proof.
  intros H. unfold verify_r.
  assert (L : Qltb 1 x = false).
  { apply Qltb_ge. apply Qlt_le_weak. apply Qlt_trans with 0%Q; [exact H|].
    reflexivity. }
  apply Qltb_lt in H. rewrite H, L. reflexivity.
Qed.

Lemma verify_r_inside x : (0 <= x <= 1)%Q -> verify_r x = x.
Proof.
  intros [L U]. unfold verify_r.
  apply Qltb_ge in L, U. rewrite L, U. reflexivity.
Qed.

Lemma verify_r_range x : (0 <= verify_r x <= 1)%Q.
Proof.
  destruct (Qlt_le_dec 1 x) as [A|A].
  - rewrite verify_r_above by exact A. split; discriminate.
  - destruct (Qlt_le_dec x 0) as [B|B].
    + rewrite verify_r_below by exact B. split; discriminate.
    + rewrite verify_r_inside by (split; assumption). split; assumption.
Qed.


Lemma relate_collinear_cases a b oa_1 oa_2 ob_1 ob_2 :
  relate_collinear a b oa_1 oa_2 ob_1 ob_2 = disjoint
  \/ exists ra_from ra_to rb_from rb_to,
       relate_collinear a b oa_1 oa_2 ob_1 ob_2
       = segments_collinear a b ra_from ra_to rb_from rb_to.
Proof.
  unfold relate_collinear. destruct (_ || _).
  - left. reflexivity.
  - right. do 4 eexists. reflexivity.
Qed.


(** An overshoot of one half and an overshoot of ninety-nine clamp alike. *)
Example clamp_has_no_tolerance_band :
  verify_r (3 # 2) = 1%Q /\ verify_r (100 # 1) = 1%Q
  /\ verify_r (- (1 # 1000)) = 0%Q /\ verify_r (- (50 # 1)) = 0%Q.
Proof. repeat split. Qed.



(** ** Arithmetic of the collinear branch *)

Lemma cross_first p q : cross p q p = 0.
Proof. unfold cross. lia. Qed.

Lemma cross_second p q : cross p q q = 0.
Proof. unfold cross. lia. Qed.

Lemma robust_da0_cross p1 p2 q1 q2 :
  robust_da0 p1 p2 q1 q2 = cross p1 p2 q2 - cross p1 p2 q1.
Proof. unfold_robust. lia. Qed.

Lemma robust_db0_opp p1 p2 q1 q2 :
  robust_db0 p1 p2 q1 q2 = - robust_da0 p1 p2 q1 q2.
Proof. unfold_robust. lia. Qed.

Lemma collinear_iff side p1 p2 q1 q2 :
  collinear (side_evidence side p1 p2 q1 q2) = true
  <-> side q1 q2 p1 = 0 /\ side q1 q2 p2 = 0
      /\ side p1 p2 q1 = 0 /\ side p1 p2 q2 = 0.
Proof.
  unfold collinear, side_evidence, set. cbn [sides_0 sides_1 fst snd].
  rewrite !andb_true_iff, !Z.eqb_eq. tauto.
Qed.

(** Collinear side evidence from the exact orientation predicate means
    parallel segments. *)
Lemma collinear_parallel p1 p2 q1 q2 :
  collinear (side_evidence side_by_triangle p1 p2 q1 q2) = true ->
  robust_da0 p1 p2 q1 q2 = 0.
Proof.
  rewrite collinear_iff, !side_by_triangle_zero. intros (_ & _ & H1 & H2).
  rewrite robust_da0_cross. lia.
Qed.

Lemma distinct_points p q :
  equals_point_point p q = false -> rx q - rx p <> 0 \/ ry q - ry p <> 0.
Proof.
  unfold equals_point_point. rewrite andb_false_iff, !Z.eqb_neq. lia.
Qed.

(** Two parallel segments, neither of them a point, both have a nonzero
    extent along the axis [apply] projects on. *)
Lemma projected_lengths_nonzero p1 p2 q1 q2 :
  equals_point_point p1 p2 = false ->
  equals_point_point q1 q2 = false ->
  robust_da0 p1 p2 q1 q2 = 0 ->
  get (collinear_dimension p1 p2 q1 q2) p2
  - get (collinear_dimension p1 p2 q1 q2) p1 <> 0
  /\ get (collinear_dimension p1 p2 q1 q2) q2
     - get (collinear_dimension p1 p2 q1 q2) q1 <> 0.
Proof.
  intros Ha Hb. apply distinct_points in Ha, Hb. unfold_robust.
  set (dxa := rx p2 - rx p1) in *. set (dya := ry p2 - ry p1) in *.
  set (dxb := rx q2 - rx q1) in *. set (dyb := ry q2 - ry q1) in *.
  intros D. rewrite Z.geb_leb.
  destruct (Z.leb_spec (Z.abs dya + Z.abs dyb) (Z.abs dxa + Z.abs dxb))
    as [L|L]; fold dxa dya dxb dyb; split; intros Z; rewrite Z in *.
  - assert (dya * dxb = 0) as [E|E]%Z.mul_eq_0 by lia; lia.
  - assert (dxa * dyb = 0) as [E|E]%Z.mul_eq_0 by lia; lia.
  - assert (dxa * dyb = 0) as [E|E]%Z.mul_eq_0 by lia; lia.
  - assert (dya * dxb = 0) as [E|E]%Z.mul_eq_0 by lia; lia.
Qed.


(** The classification of a ratio agrees with the sign of the rational
    number it denotes: before the start iff [n / d < 0], after the end iff
    [n / d > 1]. *)
Lemma left_ratio_assign n d :
  d <> 0 -> (left (ratio_assign n d) = true <-> n * d < 0).
Proof.
  intros H. unfold left, ratio_assign.
  destruct (Z.ltb_spec d 0); cbn [numerator]; rewrite Z.ltb_lt; nia.
Qed.

Lemma right_ratio_assign n d :
  d <> 0 -> (right (ratio_assign n d) = true <-> 0 < (n - d) * d).
Proof.
  intros H. unfold right, ratio_assign.
  destruct (Z.ltb_spec d 0); cbn [numerator denominator];
    rewrite Z.gtb_ltb, Z.ltb_lt; nia.
Qed.

(** Along a reference segment of nonzero extent a point is before the
    start, on the segment or after the end, and only one of the three. *)
Lemma ratio_trichotomy n d :
  d <> 0 ->
  let q := ratio_assign n d in
  (left q = true /\ on_segment q = false /\ right q = false)
  \/ (left q = false /\ on_segment q = true /\ right q = false)
  \/ (left q = false /\ on_segment q = false /\ right q = true).
Proof.
  intros H. unfold left, right, on_segment, ratio_assign.
  destruct (Z.ltb_spec d 0); cbn [numerator denominator];
    rewrite !Z.gtb_ltb; decide_comparisons; cbn [andb]; try lia; tauto.
Qed.

(** With a nonzero extent of [b], [relate_collinear] answers disjoint
    exactly when the two spans have no common point. *)
Lemma relate_collinear_disjoint_iff a b oa_1 oa_2 ob_1 ob_2 :
  ob_2 - ob_1 <> 0 ->
  (relate_collinear a b oa_1 oa_2 ob_1 ob_2 = disjoint
   <-> spans_intersect oa_1 oa_2 ob_1 ob_2 = false).
Proof.
  intros Hb. unfold relate_collinear, spans_intersect, left, right, ratio_assign.
  destruct (Z.ltb_spec (ob_2 - ob_1) 0); cbn [numerator denominator];
    rewrite !Z.gtb_ltb; decide_comparisons; cbn [andb orb];
    split; intros E; try reflexivity; try discriminate E; lia.
Qed.

(** Every input takes one of the paths above. *)
Lemma apply_paths side a b p1 p2 q1 q2 :
  let sides := side_evidence side p1 p2 q1 q2 in
  let dimension := collinear_dimension p1 p2 q1 q2 in
  let result := apply side a b p1 p2 q1 q2 in
  result = ret disjoint
  \/ (exists s f, result = ret (degenerate s f))
  \/ (equals_point_point p1 p2 = false /\ equals_point_point q1 q2 = false
      /\ same 0 sides || same 1 sides = false
      /\ ((collinear sides = true
           /\ result = ret (relate_collinear_dim dimension a b p1 p2 q1 q2))
          \/ (collinear sides = false /\ robust_da0 p1 p2 q1 q2 = 0
              /\ result
                 = Some (relate_collinear_dim dimension a b p1 p2 q1 q2,
                         ["Warning: robust_d=0, SHOULD NOT OCCUR"%string]))
          \/ (collinear sides = false /\ robust_da0 p1 p2 q1 q2 <> 0
              /\ result
                 = Some (segments_crosses sides
                           (crossing_info a b p1 p2 q1 q2) a b,
                         crossing_output a b)))).
Proof.
  intros sides dimension result. subst result.
  destruct (equals_point_point p1 p2) eqn:Ea;
    destruct (equals_point_point q1 q2) eqn:Eb.
  - rewrite apply_both_points by assumption.
    destruct (equals_point_point p1 q2); [right; left; eauto | left; reflexivity].
  - destruct (same 0 sides || same 1 sides) eqn:Es.
    + left. apply apply_same_side; [rewrite Ea, Eb; reflexivity | exact Es].
    + right; left. rewrite apply_a_point by assumption. eauto.
  - destruct (same 0 sides || same 1 sides) eqn:Es.
    + left. apply apply_same_side; [rewrite Ea, Eb; reflexivity | exact Es].
    + right; left. rewrite apply_b_point by assumption. eauto.
  - destruct (same 0 sides || same 1 sides) eqn:Es.
    + left. apply apply_same_side; [rewrite Ea, Eb; reflexivity | exact Es].
    + right; right. repeat (split; [reflexivity|]).
      destruct (collinear sides) eqn:Ec.
      * left. split; [reflexivity|]. apply apply_collinear; assumption.
      * right. destruct (Z.eq_dec (robust_da0 p1 p2 q1 q2) 0) as [Ed|Ed].
        -- left. repeat (split; [assumption || reflexivity|]).
           apply apply_forced_collinear; assumption.
        -- right. repeat (split; [assumption || reflexivity|]).
           apply apply_crossing; assumption.
Qed.

Lemma relate_collinear_ratios a b oa_1 oa_2 ob_1 ob_2 a' b' f1 f2 f3 f4 :
  relate_collinear a b oa_1 oa_2 ob_1 ob_2 = segments_collinear a' b' f1 f2 f3 f4 ->
  a' = a /\ b' = b
  /\ f1 = ratio_assign (oa_1 - ob_1) (ob_2 - ob_1)
  /\ f2 = ratio_assign (oa_2 - ob_1) (ob_2 - ob_1)
  /\ f3 = ratio_assign (ob_1 - oa_1) (oa_2 - oa_1)
  /\ f4 = ratio_assign (ob_2 - oa_1) (oa_2 - oa_1).
Proof.
  unfold relate_collinear. destruct (_ || _); [discriminate|].
  intros E. injection E as <- <- <- <- <- <-. repeat split.
Qed.

Lemma relate_collinear_dim_not_crosses dimension a b p1 p2 q1 q2 s i a' b' :
  relate_collinear_dim dimension a b p1 p2 q1 q2
  = segments_crosses s i a' b' -> False.
Proof.
  unfold relate_collinear_dim, relate_collinear.
  destruct (_ || _); discriminate.
Qed.

(** Every crossing outcome carries a ratio in [0,1], whatever the input
    and the side strategy. *)
Lemma crossing_outcome_ratio_range side a b p1 p2 q1 q2 sides sinfo a' b' output :
  apply side a b p1 p2 q1 q2 = Some (segments_crosses sides sinfo a' b', output) ->
  exists q, r sinfo = Some q /\ (0 <= q <= 1)%Q.
Proof.
  intros E.
  destruct (apply_paths side a b p1 p2 q1 q2)
    as [P|[(s & f & P)|(_ & _ & _ & [(_ & P)|[(_ & _ & P)|(_ & _ & P)]])]];
    rewrite P in E; try discriminate E.
  - injection E as E _. apply relate_collinear_dim_not_crosses in E.
    contradiction.
  - injection E as E _. apply relate_collinear_dim_not_crosses in E.
    contradiction.
  - injection E as _ <- _ _ _. eexists. split; [reflexivity|].
    apply verify_r_range.
Qed.

(** ** The collinear branch *)






(** ** Segments that share an endpoint *)

Lemma share_endpoint_not_same p1 p2 q1 q2 :
  share_endpoint p1 p2 q1 q2 ->
  same 0 (side_evidence side_by_triangle p1 p2 q1 q2)
  || same 1 (side_evidence side_by_triangle p1 p2 q1 q2) = false.
Proof.
  unfold same, side_evidence, set, side_by_triangle.
  cbn [sides_at sides_0 sides_1 fst snd].
  intros [-> | [-> | [-> | ->]]];
    rewrite ?cross_first, ?cross_second; cbn [Z.sgn];
    rewrite ?Z.mul_0_l, ?Z.mul_0_r; reflexivity.
Qed.

Lemma share_endpoint_parallel p1 p2 q1 q2 :
  share_endpoint p1 p2 q1 q2 ->
  robust_da0 p1 p2 q1 q2 = 0 ->
  collinear (side_evidence side_by_triangle p1 p2 q1 q2) = true.
Proof.
  intros H D. apply collinear_iff. rewrite !side_by_triangle_zero.
  destruct H as [-> | [-> | [-> | ->]]]; unfold_robust; repeat split; lia.
Qed.

Lemma share_endpoint_spans dimension p1 p2 q1 q2 :
  share_endpoint p1 p2 q1 q2 ->
  spans_intersect (get dimension p1) (get dimension p2)
                  (get dimension q1) (get dimension q2) = true.
Proof.
  unfold spans_intersect. rewrite Z.leb_le.
  intros [-> | [-> | [-> | ->]]]; lia.
Qed.

(** ** Symmetry *)












(** ** The scenarios of the design document *)

(** Scenario 1: A=(0,0)-(10,0), B=(5,-5)-(5,5) cross, at ratio one half
    along A (and along B, by the robust ratios). *)
Example scenario_crossing :
  exists sides sinfo q,
    relate 0 0 10 0 5 (-5) 5 5
    = Some (segments_crosses sides sinfo (seg 0 0 10 0) (seg 5 (-5) 5 5), [])
    /\ sides = SideInfo (1, -1) (-1, 1)
    /\ r sinfo = Some q /\ (q == 1 # 2)%Q
    /\ robust_ra sinfo = Some (Ratio 50 100)
    /\ robust_rb sinfo = Some (Ratio 50 100).
Proof. do 3 eexists. repeat split. Qed.

(** Scenario 2: A=(0,0)-(10,0), B=(0,1)-(10,1) are disjoint. *)
Example scenario_parallel : relate 0 0 10 0 0 1 10 1 = ret disjoint.
Proof. reflexivity. Qed.

(** Scenario 3: A=(0,0)-(10,0), B=(5,0)-(15,0) overlap; A runs from -5/10 to
    5/10 of B, and B from 5/10 to 15/10 of A. *)
Example scenario_overlap :
  relate 0 0 10 0 5 0 15 0
  = ret (segments_collinear (seg 0 0 10 0) (seg 5 0 15 0)
           (Ratio (-5) 10) (Ratio 5 10) (Ratio 5 10) (Ratio 15 10)).
Proof. reflexivity. Qed.

(** Scenario 4: A=(0,0)-(10,0), B=(10,0)-(20,0) overlap with zero width: A
    ends where B starts. *)
Example scenario_touch :
  relate 0 0 10 0 10 0 20 0
  = ret (segments_collinear (seg 0 0 10 0) (seg 10 0 20 0)
           (Ratio (-10) 10) (Ratio 0 10) (Ratio 10 10) (Ratio 20 10)).
Proof. reflexivity. Qed.

(** Scenario 5: A=(0,0)-(0,0), B=(0,0)-(10,0): A is the degenerate input. *)
Example scenario_point :
  relate 0 0 0 0 0 0 10 0 = ret (degenerate (seg 0 0 0 0) true).
Proof. reflexivity. Qed.

(** * Further properties of the code *)

(** ** Cramer's rule *)

(** X1. [cramers_rule] solves for the crossing: with [(wx, wy)] the vector
    from the start of [b] to the start of [a] and a nonzero [d], the point
    [(x1 + r * dx_a, y1 + r * dy_a)] at [r = da / d], as the comment in the
    source has it, lies on the line of [b]. *)
Theorem cramers_rule_intersection (dxa dya dxb dyb wx wy : Q) :
  ~ (fst (cramers_rule dxa dya dxb dyb wx wy) == 0)%Q ->
  let d := fst (cramers_rule dxa dya dxb dyb wx wy) in
  let da := snd (cramers_rule dxa dya dxb dyb wx wy) in
  let ratio := (da / d)%Q in
  (dxb * (wy + ratio * dya) - dyb * (wx + ratio * dxa) == 0)%Q.
Proof.
  unfold cramers_rule, determinant. cbn [fst snd a_sub a_mul Arith_Q].
  intros H. field. exact H.
Qed.

Lemma cramers_rule_intersection_witness :
  (0 * (5 + (50 / 100) * 0) - 10 * (-5 + (50 / 100) * 10) == 0)%Q.
Proof.
  apply (cramers_rule_intersection 10 0 0 10 (-5) 5). discriminate.
Defined.

(** ** The exact orientation predicate and the determinants *)

Lemma sgn_product_one x y :
  Z.sgn x * Z.sgn y = 1 <-> (0 < x /\ 0 < y) \/ (x < 0 /\ y < 0).
Proof.
  destruct (Z.sgn_spec x) as [[? ->]|[[? ->]|[? ->]]];
    destruct (Z.sgn_spec y) as [[? ->]|[[? ->]|[? ->]]]; lia.
Qed.

Lemma same_0_exact p1 p2 q1 q2 :
  same 0 (side_evidence side_by_triangle p1 p2 q1 q2) = true
  <-> (0 < cross q1 q2 p1 /\ 0 < cross q1 q2 p2)
      \/ (cross q1 q2 p1 < 0 /\ cross q1 q2 p2 < 0).
Proof.
  unfold same, side_evidence, set, side_by_triangle.
  cbn [sides_at sides_0 sides_1 fst snd].
  rewrite Z.eqb_eq. apply sgn_product_one.
Qed.

Lemma same_1_exact p1 p2 q1 q2 :
  same 1 (side_evidence side_by_triangle p1 p2 q1 q2) = true
  <-> (0 < cross p1 p2 q1 /\ 0 < cross p1 p2 q2)
      \/ (cross p1 p2 q1 < 0 /\ cross p1 p2 q2 < 0).
Proof.
  unfold same, side_evidence, set, side_by_triangle.
  cbn [sides_at sides_0 sides_1 fst snd].
  rewrite Z.eqb_eq. apply sgn_product_one.
Qed.

Lemma not_same_exact p1 p2 q1 q2 :
  same 0 (side_evidence side_by_triangle p1 p2 q1 q2)
  || same 1 (side_evidence side_by_triangle p1 p2 q1 q2) = false ->
  ~ ((0 < cross q1 q2 p1 /\ 0 < cross q1 q2 p2)
     \/ (cross q1 q2 p1 < 0 /\ cross q1 q2 p2 < 0))
  /\ ~ ((0 < cross p1 p2 q1 /\ 0 < cross p1 p2 q2)
        \/ (cross p1 p2 q1 < 0 /\ cross p1 p2 q2 < 0)).
Proof.
  rewrite orb_false_iff. intros [H0 H1]. split; intros H.
  - apply same_0_exact in H. congruence.
  - apply same_1_exact in H. congruence.
Qed.

(** The determinants of [apply] are the cross products the orientation
    predicate takes the sign of. *)
Lemma robust_da_cross p1 p2 q1 q2 : robust_da p1 p2 q1 q2 = cross q1 q2 p1.
Proof. unfold_robust. lia. Qed.

Lemma robust_db_cross p1 p2 q1 q2 : robust_db p1 p2 q1 q2 = cross p1 p2 q1.
Proof. unfold_robust. lia. Qed.

Lemma cross_far_end_a p1 p2 q1 q2 :
  cross q1 q2 p2 = cross q1 q2 p1 - robust_da0 p1 p2 q1 q2.
Proof. unfold_robust. lia. Qed.

Lemma cross_far_end_b p1 p2 q1 q2 :
  cross p1 p2 q2 = cross p1 p2 q1 + robust_da0 p1 p2 q1 q2.
Proof. unfold_robust. lia. Qed.

(** Parallel segments that survive side rejection have collinear side
    evidence. *)
Lemma parallel_survivors_collinear p1 p2 q1 q2 :
  robust_da0 p1 p2 q1 q2 = 0 ->
  same 0 (side_evidence side_by_triangle p1 p2 q1 q2)
  || same 1 (side_evidence side_by_triangle p1 p2 q1 q2) = false ->
  collinear (side_evidence side_by_triangle p1 p2 q1 q2) = true.
Proof.
  intros D S. apply not_same_exact in S as [S0 S1].
  apply collinear_iff. rewrite !side_by_triangle_zero.
  pose proof (cross_far_end_a p1 p2 q1 q2) as Fa.
  pose proof (cross_far_end_b p1 p2 q1 q2) as Fb.
  rewrite D in Fa, Fb. repeat split; lia.
Qed.

(** ** Where the crossing lies *)

Lemma on_segment_not_left_right q :
  on_segment q = true -> left q = false /\ right q = false.
Proof.
  unfold on_segment, left, right.
  rewrite andb_true_iff, !Z.leb_le, Z.gtb_ltb, !Z.ltb_ge. tauto.
Qed.

(** Segments that survive the exact side test and are not parallel cross
    within both of them. *)
Lemma exact_crossing_on_segment p1 p2 q1 q2 :
  same 0 (side_evidence side_by_triangle p1 p2 q1 q2)
  || same 1 (side_evidence side_by_triangle p1 p2 q1 q2) = false ->
  robust_da0 p1 p2 q1 q2 <> 0 ->
  on_segment (ratio_assign (robust_da p1 p2 q1 q2) (robust_da0 p1 p2 q1 q2))
  = true
  /\ on_segment (ratio_assign (robust_db p1 p2 q1 q2)
                   (robust_db0 p1 p2 q1 q2))
     = true.
Proof.
  intros Es Ed. apply not_same_exact in Es as [S0 S1].
  rewrite (cross_far_end_a p1 p2 q1 q2) in S0.
  rewrite (cross_far_end_b p1 p2 q1 q2) in S1.
  rewrite robust_db0_opp, robust_da_cross, robust_db_cross.
  unfold on_segment, ratio_assign.
  set (d := robust_da0 p1 p2 q1 q2) in *.
  destruct (Z.ltb_spec d 0); destruct (Z.ltb_spec (- d) 0);
    cbn [numerator denominator];
    rewrite ?andb_true_iff, ?Z.leb_le; lia.
Qed.

(** ** Ratios as rational numbers *)

Lemma inject_Z_sub x y : inject_Z (x - y) = (inject_Z x - inject_Z y)%Q.
Proof.
  change (x - y) with (x + - y). rewrite inject_Z_plus, inject_Z_opp.
  reflexivity.
Qed.

Lemma inject_Z_nonzero z : z <> 0 -> ~ (inject_Z z == 0)%Q.
Proof.
  intros N E. apply N. apply inject_Z_injective. exact E.
Qed.

Lemma ratio_Q_assign n d :
  d <> 0 -> (ratio_Q (ratio_assign n d) == inject_Z n / inject_Z d)%Q.
Proof.
  intros N. pose proof (inject_Z_nonzero d N) as Nq.
  unfold ratio_Q, ratio_assign.
  destruct (d <? 0); cbn [numerator denominator]; [|reflexivity].
  rewrite !inject_Z_opp. field. exact Nq.
Qed.


(** The point at [robust_da / robust_da0] along [a] is the point at
    [robust_db / robust_db0] along [b]. *)
Lemma crossing_point_agrees p1 p2 q1 q2 :
  robust_da0 p1 p2 q1 q2 <> 0 ->
  (point_x p1 p2
     (ratio_Q (ratio_assign (robust_da p1 p2 q1 q2) (robust_da0 p1 p2 q1 q2)))
   == point_x q1 q2
        (ratio_Q (ratio_assign (robust_db p1 p2 q1 q2)
                    (robust_db0 p1 p2 q1 q2))))%Q
  /\ (point_y p1 p2
        (ratio_Q (ratio_assign (robust_da p1 p2 q1 q2)
                    (robust_da0 p1 p2 q1 q2)))
      == point_y q1 q2
           (ratio_Q (ratio_assign (robust_db p1 p2 q1 q2)
                       (robust_db0 p1 p2 q1 q2))))%Q.
Proof.
  intros Ed.
  assert (Eb : robust_db0 p1 p2 q1 q2 <> 0) by (rewrite robust_db0_opp; lia).
  unfold point_x, point_y.
  rewrite !ratio_Q_assign by assumption.
  apply inject_Z_nonzero in Ed, Eb.
  unfold_robust.
  rewrite ?inject_Z_sub, ?inject_Z_mult, ?inject_Z_sub in *.
  split; field; split; assumption.
Qed.

(** ** Outcomes and common points *)



Lemma meet_sym p1 p2 q1 q2 :
  segments_meet p1 p2 q1 q2 -> segments_meet q1 q2 p1 p2.
Proof.
  intros (ta & tb & Ha & Hb & Hx & Hy). exists tb, ta.
  repeat split; try tauto; symmetry; assumption.
Qed.


(** A point between two numbers below [y] is below [y]. *)
Lemma convex_below t x1 x2 y :
  (0 <= t <= 1)%Q -> (x1 < y)%Q -> (x2 < y)%Q ->
  (x1 + t * (x2 - x1) < y)%Q.
Proof.
  intros [T0 T1] A B. destruct (Qlt_le_dec t (1 # 2)) as [H|H]; nra.
Qed.

Lemma convex_above t x1 x2 y :
  (0 <= t <= 1)%Q -> (y < x1)%Q -> (y < x2)%Q ->
  (y < x1 + t * (x2 - x1))%Q.
Proof.
  intros [T0 T1] A B. destruct (Qlt_le_dec t (1 # 2)) as [H|H]; nra.
Qed.


Lemma point_at_start p1 p2 :
  (point_x p1 p2 0 == inject_Z (rx p1))%Q
  /\ (point_y p1 p2 0 == inject_Z (ry p1))%Q.
Proof. unfold point_x, point_y. split; ring. Qed.

Lemma point_at_end p1 p2 :
  (point_x p1 p2 1 == inject_Z (rx p2))%Q
  /\ (point_y p1 p2 1 == inject_Z (ry p2))%Q.
Proof. unfold point_x, point_y. rewrite !inject_Z_sub. split; ring. Qed.

Lemma point_of_degenerate p t :
  (point_x p p t == inject_Z (rx p))%Q /\ (point_y p p t == inject_Z (ry p))%Q.
Proof. unfold point_x, point_y. rewrite !inject_Z_sub. split; ring. Qed.



Lemma fraction_in_unit n d :
  (0 <= n <= d /\ 0 < d) \/ (d <= n <= 0 /\ d < 0) ->
  (0 <= inject_Z n / inject_Z d <= 1)%Q.
Proof.
  intros [([L U] & P)|([L U] & P)].
  - rewrite Zle_Qle in L, U. rewrite Zlt_Qlt in P. split.
    + apply Qle_shift_div_l; [exact P|]. rewrite Qmult_0_l. exact L.
    + apply Qle_shift_div_r; [exact P|]. rewrite Qmult_1_l. exact U.
  - assert (E : (inject_Z n / inject_Z d == inject_Z (- n) / inject_Z (- d))%Q).
    { rewrite !inject_Z_opp. field. apply inject_Z_nonzero. lia. }
    rewrite E.
    assert (L' : 0 <= - n) by lia. assert (U' : - n <= - d) by lia.
    assert (P' : 0 < - d) by lia.
    rewrite Zle_Qle in L', U'. rewrite Zlt_Qlt in P'. split.
    + apply Qle_shift_div_l; [exact P'|]. rewrite Qmult_0_l. exact L'.
    + apply Qle_shift_div_r; [exact P'|]. rewrite Qmult_1_l. exact U'.
Qed.

(** A point on the line of a segment, within the extent of the segment along
    an axis on which the segment is not degenerate, is a point of the
    segment. *)
Lemma collinear_point_on_segment dimension e q1 q2 :
  get dimension q2 - get dimension q1 <> 0 ->
  cross q1 q2 e = 0 ->
  between (get dimension q1) (get dimension q2) (get dimension e) = true ->
  exists t : Q,
    (0 <= t <= 1)%Q
    /\ (point_x q1 q2 t == inject_Z (rx e))%Q
    /\ (point_y q1 q2 t == inject_Z (ry e))%Q.
Proof.
  intros N C B.
  exists (inject_Z (get dimension e - get dimension q1)
          / inject_Z (get dimension q2 - get dimension q1))%Q.
  split.
  - apply fraction_in_unit. revert B. unfold between.
    rewrite andb_true_iff, !Z.leb_le. lia.
  - pose proof (inject_Z_nonzero _ N) as Nq.
    assert (K : (inject_Z (rx q2 - rx q1) * inject_Z (ry e - ry q1)
                 == inject_Z (ry q2 - ry q1) * inject_Z (rx e - rx q1))%Q).
    { rewrite <- !inject_Z_mult. apply inject_Z_injective.
      unfold cross in C. lia. }
    unfold point_x, point_y. destruct dimension as [|n]; cbn [get] in *.
    + split.
      * rewrite !inject_Z_sub in *. field. exact Nq.
      * transitivity (inject_Z (ry q1)
                      + inject_Z (ry q2 - ry q1) * inject_Z (rx e - rx q1)
                        / inject_Z (rx q2 - rx q1))%Q;
          [field; exact Nq|].
        rewrite <- K. rewrite !inject_Z_sub in *. field. exact Nq.
    + split.
      * transitivity (inject_Z (rx q1)
                      + inject_Z (rx q2 - rx q1) * inject_Z (ry e - ry q1)
                        / inject_Z (ry q2 - ry q1))%Q;
          [field; exact Nq|].
        rewrite K. rewrite !inject_Z_sub in *. field. exact Nq.
      * rewrite !inject_Z_sub in *. field. exact Nq.
Qed.





(** ** The overload without robustness checks *)

Lemma original_d_inject x1 y1 x2 y2 u1 v1 u2 v2 :
  (original_d (seg x1 y1 x2 y2) (seg u1 v1 u2 v2)
   == inject_Z (robust_da0 (RPoint x1 y1) (RPoint x2 y2)
                  (RPoint u1 v1) (RPoint u2 v2)))%Q.
Proof.
  unfold original_d, robust_da0, determinant, seg, pt, get_indexed, get.
  cbn [a_sub a_mul Arith_Q Arith_Z seg_first seg_second px py rx ry].
  rewrite ?inject_Z_sub, ?inject_Z_mult, ?inject_Z_sub. reflexivity.
Qed.

Lemma original_da_inject x1 y1 x2 y2 u1 v1 u2 v2 :
  (original_da (seg x1 y1 x2 y2) (seg u1 v1 u2 v2)
   == inject_Z (robust_da (RPoint x1 y1) (RPoint x2 y2)
                  (RPoint u1 v1) (RPoint u2 v2)))%Q.
Proof.
  unfold original_da, robust_da, determinant, seg, pt, get_indexed, get.
  cbn [a_sub a_mul Arith_Q Arith_Z seg_first seg_second px py rx ry].
  rewrite ?inject_Z_sub, ?inject_Z_mult, ?inject_Z_sub. reflexivity.
Qed.

(** ** What the decision depends on *)

Lemma classify_relate_collinear a b oa_1 oa_2 ob_1 ob_2 :
  classify (relate_collinear a b oa_1 oa_2 ob_1 ob_2)
  = collinear_classification oa_1 oa_2 ob_1 ob_2.
Proof.
  unfold relate_collinear, collinear_classification.
  destruct (_ || _); reflexivity.
Qed.

(** [apply] arrives at [classification_of], whatever the input segments. *)
Lemma apply_classification side a b p1 p2 q1 q2 :
  exists outcome output,
    apply side a b p1 p2 q1 q2 = Some (outcome, output)
    /\ classify outcome = classification_of side p1 p2 q1 q2.
Proof.
  unfold classification_of.
  destruct (equals_point_point p1 p2) eqn:Ea;
    destruct (equals_point_point q1 q2) eqn:Eb; cbn [andb orb].
  - rewrite apply_both_points by assumption.
    do 2 eexists. split; [reflexivity|].
    destruct (equals_point_point p1 q2); reflexivity.
  - destruct (same 0 (side_evidence side p1 p2 q1 q2)
              || same 1 (side_evidence side p1 p2 q1 q2)) eqn:Es.
    + rewrite apply_same_side by (try rewrite Ea, Eb; auto).
      do 2 eexists. split; reflexivity.
    + rewrite apply_a_point by assumption. do 2 eexists. split; reflexivity.
  - destruct (same 0 (side_evidence side p1 p2 q1 q2)
              || same 1 (side_evidence side p1 p2 q1 q2)) eqn:Es.
    + rewrite apply_same_side by (try rewrite Ea, Eb; auto).
      do 2 eexists. split; reflexivity.
    + rewrite apply_b_point by assumption. do 2 eexists. split; reflexivity.
  - destruct (same 0 (side_evidence side p1 p2 q1 q2)
              || same 1 (side_evidence side p1 p2 q1 q2)) eqn:Es.
    + rewrite apply_same_side by (try rewrite Ea, Eb; auto).
      do 2 eexists. split; reflexivity.
    + destruct (collinear (side_evidence side p1 p2 q1 q2)) eqn:Ec;
        cbn [orb].
      * rewrite apply_collinear by assumption.
        do 2 eexists. split; [reflexivity|].
        apply classify_relate_collinear.
      * destruct (Z.eqb_spec (robust_da0 p1 p2 q1 q2) 0) as [Ed|Ed].
        -- rewrite apply_forced_collinear by assumption.
           do 2 eexists. split; [reflexivity|].
           apply classify_relate_collinear.
        -- rewrite apply_crossing by assumption.
           do 2 eexists. split; reflexivity.
Qed.

(** X8. The classification is decided on the robust points alone: two calls
    of [apply] with the same robust points and side strategy return outcomes
    of the same classification, whatever the original segments are. The
    original coordinates enter the deltas, the ratio [r] and the "d=0"
    warning only. *)
Theorem classification_from_robust_points (side : side_strategy)
    (a b a' b' : segment)
    (robust_a1 robust_a2 robust_b1 robust_b2 : robust_point) :
  exists outcome outcome' output output',
    apply side a b robust_a1 robust_a2 robust_b1 robust_b2
    = Some (outcome, output)
    /\ apply side a' b' robust_a1 robust_a2 robust_b1 robust_b2
       = Some (outcome', output')
    /\ classify outcome = classify outcome'.
Proof.
  destruct (apply_classification side a b
              robust_a1 robust_a2 robust_b1 robust_b2) as (o & l & E & C).
  destruct (apply_classification side a' b'
              robust_a1 robust_a2 robust_b1 robust_b2) as (o' & l' & E' & C').
  exists o, o', l, l'. split; [exact E|]. split; [exact E'|]. congruence.
Qed.

(** ** Translation of the robust points *)

Lemma equals_point_point_translate t p q :
  equals_point_point (translate t p) (translate t q) = equals_point_point p q.
Proof.
  unfold equals_point_point, translate. cbn [rx ry].
  destruct (Z.eqb_spec (rx p) (rx q)), (Z.eqb_spec (ry p) (ry q)),
    (Z.eqb_spec (rx p + rx t) (rx q + rx t)),
    (Z.eqb_spec (ry p + ry t) (ry q + ry t)); try reflexivity; lia.
Qed.

Lemma get_translate dimension t p :
  get dimension (translate t p) = get dimension p + get dimension t.
Proof. destruct dimension; reflexivity. Qed.

Lemma get_difference_translate dimension t p q :
  get dimension (translate t p) - get dimension (translate t q)
  = get dimension p - get dimension q.
Proof. rewrite !get_translate. lia. Qed.

Lemma cross_translate t p q x :
  cross (translate t p) (translate t q) (translate t x) = cross p q x.
Proof. unfold cross, translate. cbn [rx ry]. lia. Qed.

Lemma side_evidence_translate t p1 p2 q1 q2 :
  side_evidence side_by_triangle
    (translate t p1) (translate t p2) (translate t q1) (translate t q2)
  = side_evidence side_by_triangle p1 p2 q1 q2.
Proof.
  unfold side_evidence, side_by_triangle. rewrite !cross_translate.
  reflexivity.
Qed.

Lemma relate_collinear_shift a b c oa_1 oa_2 ob_1 ob_2 :
  relate_collinear a b (oa_1 + c) (oa_2 + c) (ob_1 + c) (ob_2 + c)
  = relate_collinear a b oa_1 oa_2 ob_1 ob_2.
Proof.
  unfold relate_collinear.
  replace (oa_2 + c - (oa_1 + c)) with (oa_2 - oa_1) by lia.
  replace (ob_2 + c - (ob_1 + c)) with (ob_2 - ob_1) by lia.
  replace (oa_1 + c - (ob_1 + c)) with (oa_1 - ob_1) by lia.
  replace (oa_2 + c - (ob_1 + c)) with (oa_2 - ob_1) by lia.
  replace (ob_1 + c - (oa_1 + c)) with (ob_1 - oa_1) by lia.
  replace (ob_2 + c - (oa_1 + c)) with (ob_2 - oa_1) by lia.
  reflexivity.
Qed.

(** X9. With the exact orientation predicate [apply] is invariant under a
    translation of the four robust points: moving all of them by the same
    vector changes neither the outcome, with all its evidence, nor what is
    printed. *)
Theorem apply_translation_invariant (t : robust_point) (a b : segment)
    (robust_a1 robust_a2 robust_b1 robust_b2 : robust_point) :
  apply side_by_triangle a b
    (translate t robust_a1) (translate t robust_a2)
    (translate t robust_b1) (translate t robust_b2)
  = apply side_by_triangle a b robust_a1 robust_a2 robust_b1 robust_b2.
Proof.
  unfold apply. rewrite !equals_point_point_translate, side_evidence_translate.
  unfold apply_not_collinear, relate_collinear_dim.
  rewrite !get_difference_translate, !get_translate, !relate_collinear_shift.
  reflexivity.
Qed.

(** ** Direction of the segments *)







Lemma collinear_classification_spans oa_1 oa_2 ob_1 ob_2 :
  ob_2 - ob_1 <> 0 ->
  collinear_classification oa_1 oa_2 ob_1 ob_2
  = if spans_intersect oa_1 oa_2 ob_1 ob_2 then is_collinear else is_disjoint.
Proof.
  intros Lb.
  pose proof (relate_collinear_disjoint_iff
                (seg 0 0 0 0) (seg 0 0 0 0) oa_1 oa_2 ob_1 ob_2 Lb) as D.
  unfold relate_collinear in D. unfold collinear_classification.
  destruct (_ || _); destruct (spans_intersect oa_1 oa_2 ob_1 ob_2);
    try reflexivity.
  - destruct D as [D _]. discriminate (D eq_refl).
  - destruct D as [_ D]. discriminate (D eq_refl).
Qed.





(** ** What an outcome tells about the input *)

(** X11. An outcome is truthful about the input, whatever the side strategy:
    [Policy::degenerate(s, flag)] is only returned for a segment [s] that is
    a single point in rescaled coordinates, [s] being [a] when the flag is
    [true] and [b] (with [a] not a point) when it is [false];
    [Policy::segments_crosses] and [Policy::segments_collinear] are only
    returned when neither segment is a point, and carry [a] and [b]
    themselves, the side evidence as computed, and the original deltas. *)
Theorem outcome_names_its_input (side : side_strategy) (a b : segment)
    (robust_a1 robust_a2 robust_b1 robust_b2 : robust_point)
    (outcome : return_type) (output : list string) :
  apply side a b robust_a1 robust_a2 robust_b1 robust_b2
  = Some (outcome, output) ->
  let a_is_point := equals_point_point robust_a1 robust_a2 in
  let b_is_point := equals_point_point robust_b1 robust_b2 in
  match outcome with
  | disjoint => True
  | degenerate s flag =>
      if flag then s = a /\ a_is_point = true
      else s = b /\ b_is_point = true /\ a_is_point = false
  | segments_crosses sides sinfo a' b' =>
      a' = a /\ b' = b /\ a_is_point = false /\ b_is_point = false
      /\ sides = side_evidence side robust_a1 robust_a2 robust_b1 robust_b2
      /\ dx_a sinfo = (get_indexed 1 0 a - get_indexed 0 0 a)%Q
      /\ dy_a sinfo = (get_indexed 1 1 a - get_indexed 0 1 a)%Q
      /\ dx_b sinfo = (get_indexed 1 0 b - get_indexed 0 0 b)%Q
      /\ dy_b sinfo = (get_indexed 1 1 b - get_indexed 0 1 b)%Q
  | segments_collinear a' b' _ _ _ _ =>
      a' = a /\ b' = b /\ a_is_point = false /\ b_is_point = false
  end.
Proof.
  intros E a_is_point b_is_point. subst a_is_point b_is_point.
  set (sides := side_evidence side robust_a1 robust_a2 robust_b1 robust_b2).
  destruct (equals_point_point robust_a1 robust_a2) eqn:Ea;
    destruct (equals_point_point robust_b1 robust_b2) eqn:Eb.
  - rewrite apply_both_points in E by assumption.
    destruct (equals_point_point robust_a1 robust_b2);
      injection E as <- _; [split; reflexivity | exact I].
  - destruct (same 0 sides || same 1 sides) eqn:Es.
    + rewrite apply_same_side in E by (try rewrite Ea, Eb; auto).
      injection E as <- _. exact I.
    + rewrite apply_a_point in E by assumption.
      injection E as <- _. split; reflexivity.
  - destruct (same 0 sides || same 1 sides) eqn:Es.
    + rewrite apply_same_side in E by (try rewrite Ea, Eb; auto).
      injection E as <- _. exact I.
    + rewrite apply_b_point in E by assumption.
      injection E as <- _. repeat split.
  - destruct (same 0 sides || same 1 sides) eqn:Es.
    + rewrite apply_same_side in E by (try rewrite Ea, Eb; auto).
      injection E as <- _. exact I.
    + assert (R : forall dimension,
                 match relate_collinear_dim dimension a b
                         robust_a1 robust_a2 robust_b1 robust_b2 with
                 | segments_collinear a' b' _ _ _ _ =>
                     a' = a /\ b' = b /\ false = false /\ false = false
                 | disjoint => True
                 | _ => False
                 end).
      { intros dimension. unfold relate_collinear_dim, relate_collinear.
        match goal with
        | |- context [if ?c then _ else _] => destruct c
        end; [exact I | repeat split]. }
      destruct (collinear sides) eqn:Ec.
      * rewrite apply_collinear in E by assumption. injection E as <- _.
        specialize (R (collinear_dimension
                         robust_a1 robust_a2 robust_b1 robust_b2)).
        destruct (relate_collinear_dim _ a b _ _ _ _);
          solve [exact I | contradiction | exact R].
      * destruct (Z.eq_dec
                    (robust_da0 robust_a1 robust_a2 robust_b1 robust_b2) 0)
          as [Ed|Ed].
        -- rewrite apply_forced_collinear in E by assumption.
           injection E as <- _.
           specialize (R (collinear_dimension
                            robust_a1 robust_a2 robust_b1 robust_b2)).
           destruct (relate_collinear_dim _ a b _ _ _ _);
             solve [exact I | contradiction | exact R].
        -- rewrite apply_crossing in E by assumption.
           injection E as <- _. repeat split.
Qed.

Lemma outcome_names_its_input_witness :
  seg 0 0 0 0 = seg 0 0 0 0
  /\ equals_point_point (RPoint 0 0) (RPoint 0 0) = true
  /\ equals_point_point (RPoint 0 0) (RPoint 10 0) = false.
Proof.
  exact (outcome_names_its_input side_by_triangle
           (seg 0 0 10 0) (seg 0 0 0 0)
           (RPoint 0 0) (RPoint 10 0) (RPoint 0 0) (RPoint 0 0)
           (degenerate (seg 0 0 0 0) false) [] eq_refl).
Defined.

(** ** Collinear segments: ratios and spans *)

Lemma on_segment_between x v1 v2 :
  v2 - v1 <> 0 ->
  on_segment (ratio_assign (x - v1) (v2 - v1)) = between v1 v2 x.
Proof.
  intros N. unfold on_segment, between, ratio_assign.
  destruct (Z.ltb_spec (v2 - v1) 0); cbn [numerator denominator];
    decide_comparisons; cbn [andb]; try reflexivity; lia.
Qed.




(** ** The clamp *)

(** X14. [verify_r] is the projection onto [0,1]: applying it twice is
    applying it once, it preserves the order of its arguments, and it maps
    equal rationals to equal rationals. *)
Theorem verify_r_projection (x y : Q) :
  verify_r (verify_r x) = verify_r x
  /\ ((x <= y)%Q -> (verify_r x <= verify_r y)%Q)
  /\ ((x == y)%Q -> (verify_r x == verify_r y)%Q).
Proof.
  assert (M : forall u v : Q, (u <= v)%Q -> (verify_r u <= verify_r v)%Q).
  { intros u v L.
    destruct (Qlt_le_dec 1 u) as [A|A].
    - rewrite (verify_r_above u A), (verify_r_above v) by lra. lra.
    - destruct (Qlt_le_dec u 0) as [B|B].
      + rewrite (verify_r_below u B). apply verify_r_range.
      + rewrite (verify_r_inside u) by (split; assumption).
        destruct (Qlt_le_dec 1 v) as [C|C].
        * rewrite (verify_r_above v C). exact A.
        * rewrite (verify_r_inside v) by (split; lra). exact L. }
  split; [|split].
  - apply verify_r_inside, verify_r_range.
  - apply M.
  - intros E. apply Qle_antisym; apply M; rewrite E; lra.
Qed.

(** ** The worked examples of the source *)

(** The three examples in the comment of [relate_collinear] (a from 2 to 7
    and b from 5 to 8; both reversed; b reversed) evaluate to the ratios and
    positions the comment gives. *)
Example relate_collinear_documented_examples :
  let a := seg 2 0 7 0 in
  let b := seg 5 0 8 0 in
  relate_collinear a b 2 7 5 8
  = segments_collinear a b (Ratio (-3) 3) (Ratio 2 3) (Ratio 3 5) (Ratio 6 5)
  /\ relate_collinear a b 7 2 8 5
     = segments_collinear a b (Ratio 1 3) (Ratio 6 3) (Ratio (-1) 5) (Ratio 2 5)
  /\ relate_collinear a b 2 7 8 5
     = segments_collinear a b (Ratio 6 3) (Ratio 1 3) (Ratio 6 5) (Ratio 3 5)
  /\ left (Ratio (-3) 3) = true /\ on_segment (Ratio 2 3) = true
  /\ on_segment (Ratio 3 5) = true /\ right (Ratio 6 5) = true
  /\ left (Ratio (-1) 5) = true /\ right (Ratio 6 3) = true.
Proof. repeat split. Qed.

(** ** A point beside a segment *)

Lemma meeting_point_between u1 u2 x t :
  (0 <= t <= 1)%Q ->
  (inject_Z x == inject_Z u1 + t * inject_Z (u2 - u1))%Q ->
  between u1 u2 x = true.
Proof.
  intros Ht E. rewrite inject_Z_sub in E.
  unfold between. rewrite andb_true_iff, !Z.leb_le.
  destruct (Z_lt_le_dec x (Z.min u1 u2)) as [L|L].
  - exfalso. assert (A : x < u1) by lia. assert (B : x < u2) by lia.
    rewrite Zlt_Qlt in A, B.
    pose proof (convex_above t _ _ _ Ht A B) as C. lra.
  - destruct (Z_lt_le_dec (Z.max u1 u2) x) as [U|U]; [|lia].
    exfalso. assert (A : u1 < x) by lia. assert (B : u2 < x) by lia.
    rewrite Zlt_Qlt in A, B.
    pose proof (convex_below t _ _ _ Ht A B) as C. lra.
Qed.

(** X15. [Policy::degenerate] does not mean that the segments touch. When
    [a] is a single point on the line of a proper segment [b] but beyond its
    ends, [apply] still returns [degenerate(a, true)], with the exact
    orientation predicate, although the point and the segment have nothing in
    common: only the side test stands between a degenerate input and this
    outcome. *)
Theorem degenerate_beside_segment (a b : segment)
    (robust_a1 robust_b1 robust_b2 : robust_point) :
  equals_point_point robust_b1 robust_b2 = false ->
  cross robust_b1 robust_b2 robust_a1 = 0 ->
  point_on_segment robust_a1 robust_b1 robust_b2 = false ->
  apply side_by_triangle a b robust_a1 robust_a1 robust_b1 robust_b2
  = ret (degenerate a true)
  /\ ~ segments_meet robust_a1 robust_a1 robust_b1 robust_b2.
Proof.
  intros Eb C N. split.
  - apply apply_a_point.
    + apply equals_point_point_refl.
    + exact Eb.
    + apply same_side_a_point. exact C.
  - intros (ta & tb & _ & Hb & Hx & Hy).
    destruct (point_of_degenerate robust_a1 ta) as [Ax Ay].
    rewrite Ax in Hx. rewrite Ay in Hy.
    unfold point_x in Hx. unfold point_y in Hy.
    apply (meeting_point_between _ _ _ tb Hb) in Hx, Hy.
    unfold point_on_segment in N. rewrite C, Hx, Hy in N. discriminate N.
Qed.

Lemma degenerate_beside_segment_witness :
  apply side_by_triangle (seg 20 0 20 0) (seg 0 0 10 0)
    (RPoint 20 0) (RPoint 20 0) (RPoint 0 0) (RPoint 10 0)
  = ret (degenerate (seg 20 0 20 0) true)
  /\ ~ segments_meet (RPoint 20 0) (RPoint 20 0) (RPoint 0 0) (RPoint 10 0).
Proof.
  apply (degenerate_beside_segment (seg 20 0 20 0) (seg 0 0 10 0)
           (RPoint 20 0) (RPoint 0 0) (RPoint 10 0)); reflexivity.
Defined.

(** * The code in machine arithmetic *)

(** ** The paths through [Machine.apply] *)

Section MachinePaths.

Variable side : side_strategy.
Variables a b : Machine.segment.
Variables p1 p2 q1 q2 : robust_point.

Let sides := side_evidence side p1 p2 q1 q2.
Let a_is_point := equals_point_point p1 p2.
Let b_is_point := equals_point_point q1 q2.
Let dimension := Machine.collinear_dimension p1 p2 q1 q2.

Lemma machine_apply_both_points :
  a_is_point = true -> b_is_point = true ->
  Machine.apply side a b p1 p2 q1 q2
  = ret (if equals_point_point p1 q2
         then Machine.degenerate a true else Machine.disjoint).
Proof.
  unfold a_is_point, b_is_point, Machine.apply. intros -> ->. reflexivity.
Qed.

Lemma machine_apply_same_side :
  a_is_point && b_is_point = false ->
  same 0 sides || same 1 sides = true ->
  Machine.apply side a b p1 p2 q1 q2 = ret Machine.disjoint.
Proof.
  unfold a_is_point, b_is_point, sides, Machine.apply. intros -> ->.
  reflexivity.
Qed.

Lemma machine_apply_a_point :
  a_is_point = true -> b_is_point = false ->
  same 0 sides || same 1 sides = false ->
  Machine.apply side a b p1 p2 q1 q2 = ret (Machine.degenerate a true).
Proof.
  unfold a_is_point, b_is_point, sides, Machine.apply. intros -> -> ->.
  reflexivity.
Qed.

Lemma machine_apply_b_point :
  a_is_point = false -> b_is_point = true ->
  same 0 sides || same 1 sides = false ->
  Machine.apply side a b p1 p2 q1 q2 = ret (Machine.degenerate b false).
Proof.
  unfold a_is_point, b_is_point, sides, Machine.apply. intros -> -> ->.
  reflexivity.
Qed.

Lemma machine_apply_collinear :
  a_is_point = false -> b_is_point = false ->
  same 0 sides || same 1 sides = false ->
  collinear sides = true ->
  Machine.apply side a b p1 p2 q1 q2
  = ret (Machine.relate_collinear_dim dimension a b p1 p2 q1 q2).
Proof.
  unfold a_is_point, b_is_point, sides, dimension, Machine.apply,
    Machine.collinear_dimension, Machine.robust_dx, Machine.robust_dy.
  intros -> -> -> ->. cbn [andb orb negb bind ret Machine.l_collinear].
  destruct (_ >=? _); reflexivity.
Qed.

Lemma machine_apply_forced_collinear :
  a_is_point = false -> b_is_point = false ->
  same 0 sides || same 1 sides = false ->
  collinear sides = false ->
  Machine.robust_da0 p1 p2 q1 q2 = 0 ->
  Machine.apply side a b p1 p2 q1 q2
  = Some (Machine.relate_collinear_dim dimension a b p1 p2 q1 q2,
          ["Warning: robust_d=0, SHOULD NOT OCCUR"%string]).
Proof.
  unfold a_is_point, b_is_point, sides, dimension, Machine.apply,
    Machine.collinear_dimension, Machine.robust_da0, Machine.robust_dx,
    Machine.robust_dy.
  intros -> -> -> -> E. cbn [andb orb negb].
  unfold Machine.apply_not_collinear, cramers_rule. cbv beta iota zeta.
  rewrite E. cbn [Z.eqb bind ret cout Machine.l_collinear app].
  destruct (_ >=? _); reflexivity.
Qed.

Lemma machine_apply_crossing :
  a_is_point = false -> b_is_point = false ->
  same 0 sides || same 1 sides = false ->
  collinear sides = false ->
  Machine.robust_da0 p1 p2 q1 q2 <> 0 ->
  Machine.apply side a b p1 p2 q1 q2
  = Some (Machine.segments_crosses sides
            (Machine.crossing_info a b p1 p2 q1 q2) a b,
          Machine.crossing_output a b).
Proof.
  unfold a_is_point, b_is_point, sides, Machine.apply, Machine.robust_da0,
    Machine.robust_dx, Machine.robust_dy.
  intros -> -> -> -> E. cbn [andb orb negb].
  unfold Machine.apply_not_collinear, cramers_rule. cbv beta iota zeta.
  apply Z.eqb_neq in E. rewrite E.
  unfold Machine.crossing_info, Machine.crossing_output, Machine.raw_r,
    Machine.original_d, Machine.original_da, Machine.robust_da,
    Machine.robust_db, Machine.robust_db0, Machine.robust_da0,
    Machine.robust_dx, Machine.robust_dy.
  cbn [Machine.l_sinfo Machine.l_sides Machine.l_collinear
       Machine.dx_a Machine.dy_a Machine.dx_b Machine.dy_b].
  destruct (SFeqb _ Machine.zero); reflexivity.
Qed.

End MachinePaths.

(** ** The clamp on [double] *)

Lemma machine_verify_r_nan q :
  Machine.is_nan q = true -> Machine.verify_r q = q.
Proof. destruct q; try discriminate. reflexivity. Qed.

Lemma machine_verify_r_above q :
  SFltb Machine.one q = true -> Machine.verify_r q = Machine.one.
Proof.
  intros H. unfold Machine.verify_r. rewrite H, orb_true_r. reflexivity.
Qed.

Lemma machine_ltb_zero_not_above q :
  SFltb q Machine.zero = true -> SFltb Machine.one q = false.
Proof.
  destruct q as [s|s| |s m e]; try destruct s;
    (intros H; discriminate H) || (intros _; reflexivity).
Qed.

Lemma machine_verify_r_below q :
  SFltb q Machine.zero = true -> Machine.verify_r q = Machine.zero.
Proof.
  intros H. unfold Machine.verify_r.
  rewrite H, (machine_ltb_zero_not_above q H). reflexivity.
Qed.

Lemma machine_verify_r_between q :
  SFltb q Machine.zero = false -> SFltb Machine.one q = false ->
  Machine.verify_r q = q.
Proof. intros A B. unfold Machine.verify_r. rewrite A, B. reflexivity. Qed.

Lemma SFcompare_antisym x y :
  SFcompare y x = option_map CompOpp (SFcompare x y).
Proof.
  destruct x as [s|s| |s m e], y as [s'|s'| |s' m' e'];
    try destruct s; try destruct s'; try reflexivity.
  - cbn [SFcompare option_map]. rewrite (Z.compare_antisym e e').
    destruct (e ?= e'); cbn [CompOpp]; try reflexivity.
    fold (Pos.compare m' m). fold (Pos.compare m m').
    rewrite (Pos.compare_antisym m m'). rewrite CompOpp_involutive.
    reflexivity.
  - cbn [SFcompare option_map]. rewrite (Z.compare_antisym e e').
    destruct (e ?= e'); cbn [CompOpp]; try reflexivity.
    fold (Pos.compare m' m). fold (Pos.compare m m').
    rewrite (Pos.compare_antisym m m'). reflexivity.
Qed.

Lemma SFltb_false_leb x y :
  SFcompare x y <> None -> SFltb x y = false -> SFleb y x = true.
Proof.
  unfold SFltb, SFleb. rewrite (SFcompare_antisym x y).
  destruct (SFcompare x y) as [[| |]|]; cbn [option_map CompOpp];
    try reflexivity; try discriminate. intros N. contradiction.
Qed.

Lemma SFleb_true_ltb x y : SFleb y x = true -> SFltb x y = false.
Proof.
  unfold SFltb, SFleb. rewrite (SFcompare_antisym x y).
  destruct (SFcompare x y) as [[| |]|]; cbn [option_map CompOpp];
    try reflexivity; discriminate.
Qed.

Lemma SFcompare_defined x y :
  Machine.is_nan x = false -> Machine.is_nan y = false ->
  SFcompare x y <> None.
Proof.
  destruct x as [s|s| |s m e], y as [s'|s'| |s' m' e'];
    try destruct s; try destruct s'; discriminate.
Qed.

(** A number that is neither below 0 nor above 1 is from 0 to 1. *)
Lemma machine_between_in_unit q :
  Machine.is_nan q = false ->
  SFltb q Machine.zero = false -> SFltb Machine.one q = false ->
  Machine.in_unit q = true.
Proof.
  intros N A B. unfold Machine.in_unit.
  rewrite (SFltb_false_leb q Machine.zero), (SFltb_false_leb Machine.one q);
    try assumption; try reflexivity; apply SFcompare_defined;
    assumption || reflexivity.
Qed.

Lemma machine_in_unit_between q :
  Machine.in_unit q = true ->
  SFltb q Machine.zero = false /\ SFltb Machine.one q = false.
Proof.
  unfold Machine.in_unit. rewrite andb_true_iff. intros [A B].
  split; apply SFleb_true_ltb; assumption.
Qed.

(** [verify_r] yields a number from 0 to 1, or the NaN it was given. *)
Lemma machine_verify_r_range q :
  (Machine.is_nan q = true /\ Machine.verify_r q = q)
  \/ (Machine.is_nan q = false /\ Machine.in_unit (Machine.verify_r q) = true).
Proof.
  destruct (Machine.is_nan q) eqn:N.
  - left. split; [reflexivity | apply machine_verify_r_nan; exact N].
  - right. split; [reflexivity|].
    destruct (SFltb Machine.one q) eqn:A.
    + rewrite (machine_verify_r_above q A). reflexivity.
    + destruct (SFltb q Machine.zero) eqn:B.
      * rewrite (machine_verify_r_below q B). reflexivity.
      * rewrite (machine_verify_r_between q B A).
        apply machine_between_in_unit; assumption.
Qed.

(** ** The crossing ratio in [double] *)

(** C1, as the code has it. On the crossing path (neither segment a point,
    no side rejection, side evidence not collinear, computed rescaled
    determinant nonzero) [apply] calls [Policy::segments_crosses] with
    [r = verify_r(x)], where [x] is [0] if [d == 0] and [da / d] otherwise.
    Unless [x] is a NaN, [r] lies in [0,1]: it is [1] for every [x] above
    [1] and [0] for every [x] below [0], infinities included and whatever the
    size of the overshoot, and [x] itself otherwise. A NaN (from
    [inf / inf] after an overflow of the determinants) compares false with
    [0] and [1] and is handed to the policy unchanged. *)
Theorem machine_crossing_ratio_clamped (side : side_strategy)
    (a b : Machine.segment)
    (robust_a1 robust_a2 robust_b1 robust_b2 : robust_point) :
  equals_point_point robust_a1 robust_a2 = false ->
  equals_point_point robust_b1 robust_b2 = false ->
  let sides := side_evidence side robust_a1 robust_a2 robust_b1 robust_b2 in
  same 0 sides || same 1 sides = false ->
  collinear sides = false ->
  Machine.robust_da0 robust_a1 robust_a2 robust_b1 robust_b2 <> 0 ->
  let x := Machine.raw_r a b in
  exists sinfo output q,
    Machine.apply side a b robust_a1 robust_a2 robust_b1 robust_b2
    = Some (Machine.segments_crosses sides sinfo a b, output)
    /\ Machine.r sinfo = Some q
    /\ q = Machine.verify_r x
    /\ (Machine.is_nan x = false -> Machine.in_unit q = true)
    /\ (Machine.is_nan x = true -> q = x)
    /\ (SFltb Machine.one x = true -> q = Machine.one)
    /\ (SFltb x Machine.zero = true -> q = Machine.zero)
    /\ (Machine.in_unit x = true -> q = x).
Proof.
  intros Ea Eb sides Es Ec Ed x.
  exists (Machine.crossing_info a b robust_a1 robust_a2 robust_b1 robust_b2),
    (Machine.crossing_output a b), (Machine.verify_r x).
  split; [apply machine_apply_crossing; assumption|].
  split; [reflexivity|]. split; [reflexivity|].
  split; [|split; [|split; [|split]]].
  - intros N. destruct (machine_verify_r_range x) as [[N' _]|[_ U]];
      [congruence | exact U].
  - apply machine_verify_r_nan.
  - apply machine_verify_r_above.
  - apply machine_verify_r_below.
  - intros U. apply machine_in_unit_between in U as [A B].
    apply machine_verify_r_between; assumption.
Qed.

Lemma machine_crossing_ratio_clamped_witness :
  exists sinfo output q,
    Machine.apply side_by_triangle
      (Machine.seg Machine.zero Machine.zero (Machine.pow2 3) Machine.zero)
      (Machine.seg (Machine.pow2 4) (SFopp (Machine.pow2 2))
                   (Machine.pow2 4) (Machine.pow2 2))
      (RPoint 0 0) (RPoint 8 0) (RPoint 4 (-4)) (RPoint 4 4)
    = Some (Machine.segments_crosses
              (side_evidence side_by_triangle
                 (RPoint 0 0) (RPoint 8 0) (RPoint 4 (-4)) (RPoint 4 4))
              sinfo
              (Machine.seg Machine.zero Machine.zero
                           (Machine.pow2 3) Machine.zero)
              (Machine.seg (Machine.pow2 4) (SFopp (Machine.pow2 2))
                           (Machine.pow2 4) (Machine.pow2 2)), output)
    /\ Machine.r sinfo = Some q
    /\ q = Machine.one.
Proof.
  destruct (machine_crossing_ratio_clamped side_by_triangle
              (Machine.seg Machine.zero Machine.zero
                           (Machine.pow2 3) Machine.zero)
              (Machine.seg (Machine.pow2 4) (SFopp (Machine.pow2 2))
                           (Machine.pow2 4) (Machine.pow2 2))
              (RPoint 0 0) (RPoint 8 0) (RPoint 4 (-4)) (RPoint 4 4))
    as (sinfo & output & q & E & R & _ & _ & _ & A & _);
    [reflexivity | reflexivity | reflexivity | reflexivity
    | vm_compute; discriminate | ].
  exists sinfo, output, q. split; [exact E|]. split; [exact R|].
  apply A. vm_compute. reflexivity.
Defined.

(** The claim C1 itself fails on the code: for A=(0,0)-(2^600,0) and
    B=(2^599,-2^600)-(2^599,2^600), rescaled to (0,0)-(2,0) and
    (1,-2)-(1,2), both determinants overflow to infinity, [da / d] is a NaN,
    [verify_r] leaves it alone and the policy receives a ratio that is not in
    [0,1]. *)
Lemma machine_crossing_ratio_nan :
  Machine.original_d
    (Machine.seg Machine.zero Machine.zero (Machine.pow2 600) Machine.zero)
    (Machine.seg (Machine.pow2 599) (SFopp (Machine.pow2 600))
                 (Machine.pow2 599) (Machine.pow2 600))
  = S754_infinity false
  /\ Machine.original_da
       (Machine.seg Machine.zero Machine.zero (Machine.pow2 600) Machine.zero)
       (Machine.seg (Machine.pow2 599) (SFopp (Machine.pow2 600))
                    (Machine.pow2 599) (Machine.pow2 600))
     = S754_infinity false
  /\ exists sinfo,
       Machine.apply side_by_triangle
         (Machine.seg Machine.zero Machine.zero
                      (Machine.pow2 600) Machine.zero)
         (Machine.seg (Machine.pow2 599) (SFopp (Machine.pow2 600))
                      (Machine.pow2 599) (Machine.pow2 600))
         (RPoint 0 0) (RPoint 2 0) (RPoint 1 (-2)) (RPoint 1 2)
       = Some (Machine.segments_crosses (SideInfo (1, -1) (-1, 1)) sinfo
                 (Machine.seg Machine.zero Machine.zero
                              (Machine.pow2 600) Machine.zero)
                 (Machine.seg (Machine.pow2 599) (SFopp (Machine.pow2 600))
                              (Machine.pow2 599) (Machine.pow2 600)),
               [])
       /\ Machine.r sinfo = Some S754_nan
       /\ Machine.in_unit S754_nan = false.
Proof.
  split; [vm_compute; reflexivity|].
  split; [vm_compute; reflexivity|].
  eexists. split; [vm_compute; reflexivity|]. split; reflexivity.
Qed.

(** ** Robust arithmetic that does not wrap *)

Lemma wrap_small z :
  - 9223372036854775808 <= z < 9223372036854775808 -> Machine.wrap z = z.
Proof.
  intros H. unfold Machine.wrap. rewrite Z.mod_small; lia.
Qed.

Lemma rsub_small x y :
  - 4611686018427387904 < x < 4611686018427387904 ->
  - 4611686018427387904 < y < 4611686018427387904 ->
  Machine.rsub x y = x - y.
Proof. intros Hx Hy. apply wrap_small. lia. Qed.

Lemma product_bound x y :
  - 2147483648 < x < 2147483648 -> - 2147483648 < y < 2147483648 ->
  - 4611686018427387904 < x * y < 4611686018427387904.
Proof.
  intros Hx Hy. pose proof (Z.abs_mul x y) as M.
  assert (B : Z.abs x * Z.abs y <= 2147483647 * 2147483647)
    by (apply Z.mul_le_mono_nonneg; lia).
  lia.
Qed.

Lemma rmul_small x y :
  - 2147483648 < x < 2147483648 -> - 2147483648 < y < 2147483648 ->
  Machine.rmul x y = x * y.
Proof.
  intros Hx Hy. pose proof (product_bound x y Hx Hy). apply wrap_small. lia.
Qed.

Lemma rabs_small x :
  - 2147483648 < x < 2147483648 -> Machine.rabs x = Z.abs x.
Proof.
  intros H. unfold Machine.rabs.
  destruct (Z.ltb_spec x 0); [rewrite wrap_small|]; lia.
Qed.

Lemma determinant_small ux uy vx vy :
  - 2147483648 < ux < 2147483648 -> - 2147483648 < uy < 2147483648 ->
  - 2147483648 < vx < 2147483648 -> - 2147483648 < vy < 2147483648 ->
  determinant (H := Machine.Arith_long_long) ux uy vx vy
  = determinant ux uy vx vy
  /\ - 9223372036854775808 < determinant ux uy vx vy < 9223372036854775808.
Proof.
  intros A B C D. unfold determinant.
  cbn [a_sub a_mul Machine.Arith_long_long Arith_Z].
  pose proof (product_bound ux vy A D). pose proof (product_bound uy vx B C).
  rewrite !rmul_small by assumption. rewrite rsub_small by assumption.
  split; [reflexivity | lia].
Qed.

Lemma difference_in_range dimension p q :
  Machine.in_range p -> Machine.in_range q ->
  Machine.rsub (get dimension p) (get dimension q)
  = get dimension p - get dimension q
  /\ - 2147483648 < get dimension p - get dimension q < 2147483648.
Proof.
  unfold Machine.in_range. intros Hp Hq.
  destruct dimension; cbn [get]; (split; [apply rsub_small|]); lia.
Qed.

Lemma ratio_assign_small n d :
  - 9223372036854775808 < n < 9223372036854775808 ->
  - 9223372036854775808 < d < 9223372036854775808 ->
  Machine.ratio_assign n d = ratio_assign n d.
Proof.
  intros Hn Hd. unfold Machine.ratio_assign, ratio_assign.
  destruct (d <? 0); [rewrite !wrap_small by lia|]; reflexivity.
Qed.

(** On robust points within range the machine computes the exact
    determinants and the exact projection axis. *)
Lemma machine_robust_exact p1 p2 q1 q2 :
  Machine.in_range p1 -> Machine.in_range p2 ->
  Machine.in_range q1 -> Machine.in_range q2 ->
  Machine.robust_da0 p1 p2 q1 q2 = robust_da0 p1 p2 q1 q2
  /\ Machine.robust_da p1 p2 q1 q2 = robust_da p1 p2 q1 q2
  /\ Machine.robust_db0 p1 p2 q1 q2 = robust_db0 p1 p2 q1 q2
  /\ Machine.robust_db p1 p2 q1 q2 = robust_db p1 p2 q1 q2
  /\ Machine.collinear_dimension p1 p2 q1 q2 = collinear_dimension p1 p2 q1 q2
  /\ - 9223372036854775808 < robust_da0 p1 p2 q1 q2 < 9223372036854775808
  /\ - 9223372036854775808 < robust_da p1 p2 q1 q2 < 9223372036854775808
  /\ - 9223372036854775808 < robust_db0 p1 p2 q1 q2 < 9223372036854775808
  /\ - 9223372036854775808 < robust_db p1 p2 q1 q2 < 9223372036854775808.
Proof.
  intros R1 R2 R3 R4.
  unfold Machine.robust_da0, Machine.robust_da, Machine.robust_db0,
    Machine.robust_db, Machine.collinear_dimension, Machine.robust_dx,
    Machine.robust_dy, robust_da0, robust_da, robust_db0, robust_db,
    collinear_dimension.
  destruct (difference_in_range 0 p2 p1 R2 R1) as [-> A0].
  destruct (difference_in_range 1 p2 p1 R2 R1) as [-> A1].
  destruct (difference_in_range 0 q2 q1 R4 R3) as [-> B0].
  destruct (difference_in_range 1 q2 q1 R4 R3) as [-> B1].
  destruct (difference_in_range 0 p1 q1 R1 R3) as [-> W0].
  destruct (difference_in_range 1 p1 q1 R1 R3) as [-> W1].
  destruct (difference_in_range 0 q1 p1 R3 R1) as [-> V0].
  destruct (difference_in_range 1 q1 p1 R3 R1) as [-> V1].
  destruct (determinant_small _ _ _ _ A0 A1 B0 B1) as [-> D1].
  destruct (determinant_small _ _ _ _ B0 B1 W0 W1) as [-> D2].
  destruct (determinant_small _ _ _ _ B0 B1 A0 A1) as [-> D3].
  destruct (determinant_small _ _ _ _ A0 A1 V0 V1) as [-> D4].
  rewrite !rabs_small by assumption.
  unfold Machine.radd. rewrite !wrap_small by lia.
  repeat split; try reflexivity; lia.
Qed.

(** On coordinates within range [Machine.relate_collinear] builds the exact
    ratios and takes the exact decision. *)
Lemma machine_relate_collinear_exact a b dimension p1 p2 q1 q2 :
  Machine.in_range p1 -> Machine.in_range p2 ->
  Machine.in_range q1 -> Machine.in_range q2 ->
  let oa_1 := get dimension p1 in
  let oa_2 := get dimension p2 in
  let ob_1 := get dimension q1 in
  let ob_2 := get dimension q2 in
  Machine.relate_collinear_dim dimension a b p1 p2 q1 q2
  = match collinear_classification oa_1 oa_2 ob_1 ob_2 with
    | is_disjoint => Machine.disjoint
    | _ =>
        Machine.segments_collinear a b
          (ratio_assign (oa_1 - ob_1) (ob_2 - ob_1))
          (ratio_assign (oa_2 - ob_1) (ob_2 - ob_1))
          (ratio_assign (ob_1 - oa_1) (oa_2 - oa_1))
          (ratio_assign (ob_2 - oa_1) (oa_2 - oa_1))
    end.
Proof.
  intros R1 R2 R3 R4 oa_1 oa_2 ob_1 ob_2. subst oa_1 oa_2 ob_1 ob_2.
  unfold Machine.relate_collinear_dim, Machine.relate_collinear,
    collinear_classification.
  destruct (difference_in_range dimension p2 p1 R2 R1) as [-> A].
  destruct (difference_in_range dimension q2 q1 R4 R3) as [-> B].
  destruct (difference_in_range dimension p1 q1 R1 R3) as [-> C].
  destruct (difference_in_range dimension p2 q1 R2 R3) as [-> D].
  destruct (difference_in_range dimension q1 p1 R3 R1) as [-> E].
  destruct (difference_in_range dimension q2 p1 R4 R1) as [-> F].
  rewrite !ratio_assign_small by lia.
  match goal with
  | |- context [if ?c then _ else _] => destruct c
  end; reflexivity.
Qed.

(** Every input takes one of the paths of [Machine.apply]. *)
Lemma machine_apply_paths side a b p1 p2 q1 q2 :
  let sides := side_evidence side p1 p2 q1 q2 in
  let dimension := Machine.collinear_dimension p1 p2 q1 q2 in
  let result := Machine.apply side a b p1 p2 q1 q2 in
  result = ret Machine.disjoint
  \/ (exists s f, result = ret (Machine.degenerate s f))
  \/ (equals_point_point p1 p2 = false /\ equals_point_point q1 q2 = false
      /\ same 0 sides || same 1 sides = false
      /\ ((collinear sides = true
           /\ result
              = ret (Machine.relate_collinear_dim dimension a b p1 p2 q1 q2))
          \/ (collinear sides = false /\ Machine.robust_da0 p1 p2 q1 q2 = 0
              /\ result
                 = Some (Machine.relate_collinear_dim dimension a b
                           p1 p2 q1 q2,
                         ["Warning: robust_d=0, SHOULD NOT OCCUR"%string]))
          \/ (collinear sides = false /\ Machine.robust_da0 p1 p2 q1 q2 <> 0
              /\ result
                 = Some (Machine.segments_crosses sides
                           (Machine.crossing_info a b p1 p2 q1 q2) a b,
                         Machine.crossing_output a b)))).
Proof.
  intros sides dimension result. subst result.
  destruct (equals_point_point p1 p2) eqn:Ea;
    destruct (equals_point_point q1 q2) eqn:Eb.
  - rewrite machine_apply_both_points by assumption.
    destruct (equals_point_point p1 q2); [right; left; eauto | left; reflexivity].
  - destruct (same 0 sides || same 1 sides) eqn:Es.
    + left. apply machine_apply_same_side;
        [rewrite Ea, Eb; reflexivity | exact Es].
    + right; left. rewrite machine_apply_a_point by assumption. eauto.
  - destruct (same 0 sides || same 1 sides) eqn:Es.
    + left. apply machine_apply_same_side;
        [rewrite Ea, Eb; reflexivity | exact Es].
    + right; left. rewrite machine_apply_b_point by assumption. eauto.
  - destruct (same 0 sides || same 1 sides) eqn:Es.
    + left. apply machine_apply_same_side;
        [rewrite Ea, Eb; reflexivity | exact Es].
    + right; right. repeat (split; [reflexivity|]).
      destruct (collinear sides) eqn:Ec.
      * left. split; [reflexivity|]. apply machine_apply_collinear; assumption.
      * right.
        destruct (Z.eq_dec (Machine.robust_da0 p1 p2 q1 q2) 0) as [Ed|Ed].
        -- left. repeat (split; [assumption || reflexivity|]).
           apply machine_apply_forced_collinear; assumption.
        -- right. repeat (split; [assumption || reflexivity|]).
           apply machine_apply_crossing; assumption.
Qed.

Lemma machine_relate_collinear_cases dimension a b p1 p2 q1 q2 :
  Machine.relate_collinear_dim dimension a b p1 p2 q1 q2 = Machine.disjoint
  \/ exists ra_from ra_to rb_from rb_to,
       Machine.relate_collinear_dim dimension a b p1 p2 q1 q2
       = Machine.segments_collinear a b ra_from ra_to rb_from rb_to.
Proof.
  unfold Machine.relate_collinear_dim, Machine.relate_collinear.
  match goal with
  | |- context [if ?c then _ else _] => destruct c
  end.
  - left. reflexivity.
  - right. do 4 eexists. reflexivity.
Qed.

(** ** The defensive re-entry, in machine arithmetic *)



(** ** Ratio denominators, in machine arithmetic *)



Lemma machine_relate_collinear_dim_not_crosses dimension a b p1 p2 q1 q2
    s i a' b' :
  Machine.relate_collinear_dim dimension a b p1 p2 q1 q2
  = Machine.segments_crosses s i a' b' -> False.
Proof.
  destruct (machine_relate_collinear_cases dimension a b p1 p2 q1 q2)
    as [-> | (f1 & f2 & f3 & f4 & ->)]; discriminate.
Qed.




(** ** Shared endpoints, in machine arithmetic *)

Lemma at_end_zero d : at_end (ratio_assign 0 d).
Proof.
  unfold at_end, ratio_assign. destruct (d <? 0); left; reflexivity.
Qed.

Lemma at_end_whole d : at_end (ratio_assign d d).
Proof.
  unfold at_end, ratio_assign. destruct (d <? 0); right; reflexivity.
Qed.

Lemma same_coordinates p e :
  (inject_Z (rx p) == inject_Z (rx e))%Q ->
  (inject_Z (ry p) == inject_Z (ry e))%Q -> p = e.
Proof.
  intros Hx Hy.
  apply (proj1 (inject_Z_injective _ _)) in Hx.
  apply (proj1 (inject_Z_injective _ _)) in Hy.
  destruct p, e. cbn in Hx, Hy. congruence.
Qed.

Lemma on_segment_parameter dimension x q1 q2 :
  get dimension q2 - get dimension q1 <> 0 ->
  cross q1 q2 x = 0 ->
  on_segment (ratio_assign (get dimension x - get dimension q1)
                (get dimension q2 - get dimension q1)) = true ->
  exists t : Q,
    (0 <= t <= 1)%Q
    /\ (point_x q1 q2 t == inject_Z (rx x))%Q
    /\ (point_y q1 q2 t == inject_Z (ry x))%Q.
Proof.
  intros L C H. rewrite on_segment_between in H by exact L.
  apply (collinear_point_on_segment dimension); assumption.
Qed.

(** When [e] is the only common point of two collinear segments, every
    endpoint other than [e] is off the other segment. *)
Lemma only_meeting_point_off_segment e dimension p1 p2 q1 q2 :
  meet_only_at e p1 p2 q1 q2 ->
  get dimension p2 - get dimension p1 <> 0 ->
  get dimension q2 - get dimension q1 <> 0 ->
  cross q1 q2 p1 = 0 -> cross q1 q2 p2 = 0 ->
  cross p1 p2 q1 = 0 -> cross p1 p2 q2 = 0 ->
  (p1 <> e ->
   on_segment (ratio_assign (get dimension p1 - get dimension q1)
                 (get dimension q2 - get dimension q1)) = false)
  /\ (p2 <> e ->
      on_segment (ratio_assign (get dimension p2 - get dimension q1)
                    (get dimension q2 - get dimension q1)) = false)
  /\ (q1 <> e ->
      on_segment (ratio_assign (get dimension q1 - get dimension p1)
                    (get dimension p2 - get dimension p1)) = false)
  /\ (q2 <> e ->
      on_segment (ratio_assign (get dimension q2 - get dimension p1)
                    (get dimension p2 - get dimension p1)) = false).
Proof.
  intros M La Lb C1 C2 C3 C4.
  assert (U0 : (0 <= 0 <= 1)%Q) by (split; discriminate).
  assert (U1 : (0 <= 1 <= 1)%Q) by (split; discriminate).
  repeat split; intros N;
    match goal with
    | |- ?c = false => destruct c eqn:H; [exfalso; apply N | reflexivity]
    end.
  - destruct (on_segment_parameter dimension p1 q1 q2 Lb C1 H)
      as (t & Ht & Hx & Hy).
    destruct (point_at_start p1 p2) as [Sx Sy].
    destruct (M 0%Q t U0 Ht) as [Ex Ey];
      [rewrite Sx, Hx; reflexivity | rewrite Sy, Hy; reflexivity|].
    apply same_coordinates; [rewrite <- Sx | rewrite <- Sy]; assumption.
  - destruct (on_segment_parameter dimension p2 q1 q2 Lb C2 H)
      as (t & Ht & Hx & Hy).
    destruct (point_at_end p1 p2) as [Sx Sy].
    destruct (M 1%Q t U1 Ht) as [Ex Ey];
      [rewrite Sx, Hx; reflexivity | rewrite Sy, Hy; reflexivity|].
    apply same_coordinates; [rewrite <- Sx | rewrite <- Sy]; assumption.
  - destruct (on_segment_parameter dimension q1 p1 p2 La C3 H)
      as (t & Ht & Hx & Hy).
    destruct (point_at_start q1 q2) as [Sx Sy].
    destruct (M t 0%Q Ht U0) as [Ex Ey];
      [rewrite Sx, Hx; reflexivity | rewrite Sy, Hy; reflexivity|].
    apply same_coordinates; [rewrite <- Hx | rewrite <- Hy]; assumption.
  - destruct (on_segment_parameter dimension q2 p1 p2 La C4 H)
      as (t & Ht & Hx & Hy).
    destruct (point_at_end q1 q2) as [Sx Sy].
    destruct (M t 1%Q Ht U1) as [Ex Ey];
      [rewrite Sx, Hx; reflexivity | rewrite Sy, Hy; reflexivity|].
    apply same_coordinates; [rewrite <- Hx | rewrite <- Hy]; assumption.
Qed.

(** C7, amended. Let every rescaled coordinate lie strictly between -2^30
    and 2^30, so that no difference or product of [apply] wraps, and let the
    side strategy be exact. Two segments that share an endpoint are never
    reported disjoint. [apply] returns [Policy::degenerate] only when one of
    them is a single point in rescaled coordinates (flagged as in C6). When
    neither is, it calls [Policy::segments_crosses] (with the side evidence,
    a zero among its signs, and the intersection evidence) if the segments
    are not collinear, and [Policy::segments_collinear] if they are: a shared
    endpoint then has ratio 0 or 1 along the other segment, and when the
    shared endpoint is the only common point every other endpoint has a ratio
    off the other segment. *)
Theorem machine_shared_endpoint_outcome (a b : Machine.segment)
    (robust_a1 robust_a2 robust_b1 robust_b2 : robust_point) :
  Machine.in_range robust_a1 -> Machine.in_range robust_a2 ->
  Machine.in_range robust_b1 -> Machine.in_range robust_b2 ->
  share_endpoint robust_a1 robust_a2 robust_b1 robust_b2 ->
  let sides :=
    side_evidence side_by_triangle robust_a1 robust_a2 robust_b1 robust_b2 in
  let a_is_point := equals_point_point robust_a1 robust_a2 in
  let b_is_point := equals_point_point robust_b1 robust_b2 in
  let dimension :=
    Machine.collinear_dimension robust_a1 robust_a2 robust_b1 robust_b2 in
  let result :=
    Machine.apply side_by_triangle a b
      robust_a1 robust_a2 robust_b1 robust_b2 in
  let ra_from :=
    ratio_assign (get dimension robust_a1 - get dimension robust_b1)
                 (get dimension robust_b2 - get dimension robust_b1) in
  let ra_to :=
    ratio_assign (get dimension robust_a2 - get dimension robust_b1)
                 (get dimension robust_b2 - get dimension robust_b1) in
  let rb_from :=
    ratio_assign (get dimension robust_b1 - get dimension robust_a1)
                 (get dimension robust_a2 - get dimension robust_a1) in
  let rb_to :=
    ratio_assign (get dimension robust_b2 - get dimension robust_a1)
                 (get dimension robust_a2 - get dimension robust_a1) in
  (a_is_point = true -> result = ret (Machine.degenerate a true))
  /\ (a_is_point = false -> b_is_point = true ->
      result = ret (Machine.degenerate b false))
  /\ (a_is_point = false -> b_is_point = false -> collinear sides = false ->
      result
      = Some (Machine.segments_crosses sides
                (Machine.crossing_info a b
                   robust_a1 robust_a2 robust_b1 robust_b2)
                a b,
              Machine.crossing_output a b)
      /\ (fst (sides_0 sides) = 0 \/ snd (sides_0 sides) = 0))
  /\ (a_is_point = false -> b_is_point = false -> collinear sides = true ->
      result
      = ret (Machine.segments_collinear a b ra_from ra_to rb_from rb_to)
      /\ (robust_a1 = robust_b1 \/ robust_a1 = robust_b2 -> at_end ra_from)
      /\ (robust_a2 = robust_b1 \/ robust_a2 = robust_b2 -> at_end ra_to)
      /\ (robust_b1 = robust_a1 \/ robust_b1 = robust_a2 -> at_end rb_from)
      /\ (robust_b2 = robust_a1 \/ robust_b2 = robust_a2 -> at_end rb_to)
      /\ forall e,
           meet_only_at e robust_a1 robust_a2 robust_b1 robust_b2 ->
           (robust_a1 <> e -> on_segment ra_from = false)
           /\ (robust_a2 <> e -> on_segment ra_to = false)
           /\ (robust_b1 <> e -> on_segment rb_from = false)
           /\ (robust_b2 <> e -> on_segment rb_to = false))
  /\ (forall output, result <> Some (Machine.disjoint, output)).
Proof.
  intros R1 R2 R3 R4 Sh sides a_is_point b_is_point dimension result
    ra_from ra_to rb_from rb_to.
  destruct (machine_robust_exact _ _ _ _ R1 R2 R3 R4)
    as (E0 & _ & _ & _ & Edim & _).
  pose proof (share_endpoint_not_same _ _ _ _ Sh) as Es. fold sides in Es.
  assert (A : a_is_point = true -> result = ret (Machine.degenerate a true)).
  { intros Ea. destruct b_is_point eqn:Eb.
    - subst result. rewrite machine_apply_both_points by assumption.
      apply equals_point_point_iff in Ea, Eb.
      assert (E : robust_a1 = robust_b2)
        by (destruct Sh as [H | [H | [H | H]]]; congruence).
      rewrite E, equals_point_point_refl. reflexivity.
    - apply machine_apply_a_point; assumption. }
  assert (B : a_is_point = false -> b_is_point = true ->
              result = ret (Machine.degenerate b false)).
  { intros Ea Eb. apply machine_apply_b_point; assumption. }
  assert (X : a_is_point = false -> b_is_point = false ->
              collinear sides = false ->
              result
              = Some (Machine.segments_crosses sides
                        (Machine.crossing_info a b
                           robust_a1 robust_a2 robust_b1 robust_b2)
                        a b, Machine.crossing_output a b)).
  { intros Ea Eb Ec. apply machine_apply_crossing; try assumption.
    rewrite E0. intros D. apply (share_endpoint_parallel _ _ _ _ Sh) in D.
    fold sides in D. congruence. }
  assert (L : a_is_point = false -> b_is_point = false ->
              collinear sides = true ->
              get dimension robust_a2 - get dimension robust_a1 <> 0
              /\ get dimension robust_b2 - get dimension robust_b1 <> 0).
  { intros Ea Eb Ec. subst dimension. rewrite Edim.
    apply projected_lengths_nonzero; try assumption.
    apply collinear_parallel. exact Ec. }
  assert (C : a_is_point = false -> b_is_point = false ->
              collinear sides = true ->
              result
              = ret (Machine.segments_collinear a b
                       ra_from ra_to rb_from rb_to)).
  { intros Ea Eb Ec. destruct (L Ea Eb Ec) as [_ Lb].
    subst result. rewrite machine_apply_collinear by assumption.
    fold dimension.
    rewrite (machine_relate_collinear_exact a b dimension
               robust_a1 robust_a2 robust_b1 robust_b2 R1 R2 R3 R4).
    cbv zeta. rewrite collinear_classification_spans by exact Lb.
    rewrite share_endpoint_spans by exact Sh. reflexivity. }
  split; [exact A|]. split; [exact B|]. split; [|split].
  - intros Ea Eb Ec. split; [exact (X Ea Eb Ec)|].
    subst sides. unfold side_evidence, set, side_by_triangle.
    cbn [sides_0 fst snd].
    destruct Sh as [-> | [-> | [-> | ->]]];
      rewrite ?cross_first, ?cross_second; cbn [Z.sgn]; tauto.
  - intros Ea Eb Ec. split; [exact (C Ea Eb Ec)|].
    subst ra_from ra_to rb_from rb_to.
    split; [intros [-> | ->]; rewrite ?Z.sub_diag;
            [apply at_end_zero | apply at_end_whole]|].
    split; [intros [-> | ->]; rewrite ?Z.sub_diag;
            [apply at_end_zero | apply at_end_whole]|].
    split; [intros [-> | ->]; rewrite ?Z.sub_diag;
            [apply at_end_zero | apply at_end_whole]|].
    split; [intros [-> | ->]; rewrite ?Z.sub_diag;
            [apply at_end_zero | apply at_end_whole]|].
    intros e M. destruct (L Ea Eb Ec) as [La Lb].
    apply collinear_iff in Ec as (C1 & C2 & C3 & C4).
    apply side_by_triangle_zero in C1, C2, C3, C4.
    apply only_meeting_point_off_segment; assumption.
  - intros output. destruct a_is_point eqn:Ea.
    + rewrite (A eq_refl). discriminate.
    + destruct b_is_point eqn:Eb.
      * rewrite (B eq_refl eq_refl). discriminate.
      * destruct (collinear sides) eqn:Ec.
        -- rewrite (C eq_refl eq_refl eq_refl). discriminate.
        -- rewrite (X eq_refl eq_refl eq_refl). discriminate.
Qed.

Example touching_collinear_segments :
  meet_only_at (RPoint 4 0)
    (RPoint 0 0) (RPoint 4 0) (RPoint 4 0) (RPoint 8 0).
Proof.
  unfold meet_only_at, point_x, point_y. cbn [rx ry].
  intros ta tb [A1 A2] [B1 B2] Hx Hy.
  change (inject_Z (4 - 0)) with 4%Q in *.
  change (inject_Z (8 - 4)) with 4%Q in *.
  change (inject_Z (0 - 0)) with 0%Q in *.
  change (inject_Z 4) with 4%Q in *. change (inject_Z 0) with 0%Q in *.
  split; lra.
Qed.

Lemma machine_shared_endpoint_outcome_witness :
  Machine.apply side_by_triangle
    (Machine.seg Machine.zero Machine.zero (Machine.pow2 2) Machine.zero)
    (Machine.seg (Machine.pow2 2) Machine.zero (Machine.pow2 3) Machine.zero)
    (RPoint 0 0) (RPoint 4 0) (RPoint 4 0) (RPoint 8 0)
  = ret (Machine.segments_collinear
           (Machine.seg Machine.zero Machine.zero
                        (Machine.pow2 2) Machine.zero)
           (Machine.seg (Machine.pow2 2) Machine.zero
                        (Machine.pow2 3) Machine.zero)
           (Ratio (-4) 4) (Ratio 0 4) (Ratio 4 4) (Ratio 8 4))
  /\ at_end (Ratio 0 4) /\ at_end (Ratio 4 4)
  /\ on_segment (Ratio (-4) 4) = false /\ on_segment (Ratio 8 4) = false.
Proof.
  destruct (machine_shared_endpoint_outcome
              (Machine.seg Machine.zero Machine.zero
                           (Machine.pow2 2) Machine.zero)
              (Machine.seg (Machine.pow2 2) Machine.zero
                           (Machine.pow2 3) Machine.zero)
              (RPoint 0 0) (RPoint 4 0) (RPoint 4 0) (RPoint 8 0))
    as (_ & _ & _ & H & _).
  - unfold Machine.in_range; cbn; lia.
  - unfold Machine.in_range; cbn; lia.
  - unfold Machine.in_range; cbn; lia.
  - unfold Machine.in_range; cbn; lia.
  - right; right; left. reflexivity.
  - destruct (H eq_refl eq_refl eq_refl) as (E & _ & T & F & _ & M).
    destruct (M (RPoint 4 0) touching_collinear_segments)
      as (M1 & _ & _ & M4).
    split; [exact E|].
    split; [exact (T (or_introl eq_refl))|].
    split; [exact (F (or_intror eq_refl))|].
    split; [apply M1; discriminate | apply M4; discriminate].
Defined.

(** The sentence of the design document that C7 restates fails on the code:
    A=(0,0)-(10,0) and B=(10,0)-(10,10) share the endpoint (10,0) and nothing
    else, and [apply] calls [Policy::segments_crosses], not
    [Policy::degenerate]. *)
Lemma machine_endpoint_touch_is_not_degenerate :
  touch_only_at (RPoint 10 0)
    (RPoint 0 0) (RPoint 10 0) (RPoint 10 0) (RPoint 10 10)
  /\ (exists sides sinfo,
        Machine.apply side_by_triangle
          (Machine.seg Machine.zero Machine.zero Machine.ten Machine.zero)
          (Machine.seg Machine.ten Machine.zero Machine.ten Machine.ten)
          (RPoint 0 0) (RPoint 10 0) (RPoint 10 0) (RPoint 10 10)
        = Some (Machine.segments_crosses sides sinfo
                  (Machine.seg Machine.zero Machine.zero
                               Machine.ten Machine.zero)
                  (Machine.seg Machine.ten Machine.zero
                               Machine.ten Machine.ten),
                []))
  /\ ~ (exists s f output,
          Machine.apply side_by_triangle
            (Machine.seg Machine.zero Machine.zero Machine.ten Machine.zero)
            (Machine.seg Machine.ten Machine.zero Machine.ten Machine.ten)
            (RPoint 0 0) (RPoint 10 0) (RPoint 10 0) (RPoint 10 10)
          = Some (Machine.degenerate s f, output)).
Proof.
  split; [|split].
  - split; [right; reflexivity|]. split; [left; reflexivity|].
    unfold on_closed_segment. cbn [rx ry].
    intros x y (A1 & A2 & A3) (B1 & B2 & B3).
    change (inject_Z (10 - 0)) with 10%Q in *.
    change (inject_Z (0 - 0)) with 0%Q in *.
    change (inject_Z (10 - 10)) with 0%Q in *.
    change (inject_Z 10) with 10%Q in *. change (inject_Z 0) with 0%Q in *.
    split; lra.
  - do 2 eexists. vm_compute. reflexivity.
  - intros (s & f & output & E). vm_compute in E. discriminate E.
Qed.

(** ** The crossing path, in machine arithmetic *)

Lemma machine_crossing_ratios a b p1 p2 q1 q2 :
  Machine.in_range p1 -> Machine.in_range p2 ->
  Machine.in_range q1 -> Machine.in_range q2 ->
  Machine.robust_ra (Machine.crossing_info a b p1 p2 q1 q2)
  = Some (ratio_assign (robust_da p1 p2 q1 q2) (robust_da0 p1 p2 q1 q2))
  /\ Machine.robust_rb (Machine.crossing_info a b p1 p2 q1 q2)
     = Some (ratio_assign (robust_db p1 p2 q1 q2) (robust_db0 p1 p2 q1 q2)).
Proof.
  intros R1 R2 R3 R4.
  destruct (machine_robust_exact _ _ _ _ R1 R2 R3 R4)
    as (E0 & Eda & E0b & Edb & _ & B0 & Bda & B0b & Bdb).
  unfold Machine.crossing_info. cbn [Machine.robust_ra Machine.robust_rb].
  rewrite E0, Eda, E0b, Edb.
  rewrite !ratio_assign_small by assumption. split; reflexivity.
Qed.

(** X2. While the rescaled coordinates lie strictly between -2^30 and 2^30
    (no difference or product wraps), with the exact orientation predicate
    the defensive re-entry into the collinear branch is never taken, as the
    source notes ("it should NOT occur anymore"): [apply] never prints the
    "robust_d=0" warning; it prints nothing, or the single line
    "Warning: d=0" before a crossing whose computed [double] determinant [d]
    compares equal to zero. *)
Theorem machine_exact_side_never_reenters (a b : Machine.segment)
    (robust_a1 robust_a2 robust_b1 robust_b2 : robust_point) :
  Machine.in_range robust_a1 -> Machine.in_range robust_a2 ->
  Machine.in_range robust_b1 -> Machine.in_range robust_b2 ->
  exists outcome output,
    Machine.apply side_by_triangle a b
      robust_a1 robust_a2 robust_b1 robust_b2
    = Some (outcome, output)
    /\ ~ In "Warning: robust_d=0, SHOULD NOT OCCUR"%string output
    /\ (output = []
        \/ (output = ["Warning: d=0"%string]
            /\ (exists sides sinfo,
                  outcome = Machine.segments_crosses sides sinfo a b)
            /\ SFeqb (Machine.original_d a b) Machine.zero = true)).
Proof.
  intros R1 R2 R3 R4.
  destruct (machine_robust_exact _ _ _ _ R1 R2 R3 R4) as (E0 & _).
  destruct (machine_apply_paths side_by_triangle a b
              robust_a1 robust_a2 robust_b1 robust_b2)
    as [P | [(s & f & P)
            | (_ & _ & Es & [(_ & P) | [(Ec & Ed & P) | (_ & _ & P)]])]].
  - rewrite P. do 2 eexists. split; [reflexivity|].
    split; [intros []|left; reflexivity].
  - rewrite P. do 2 eexists. split; [reflexivity|].
    split; [intros []|left; reflexivity].
  - rewrite P. do 2 eexists. split; [reflexivity|].
    split; [intros []|left; reflexivity].
  - rewrite E0 in Ed.
    apply parallel_survivors_collinear in Ed; [congruence | exact Es].
  - rewrite P. do 2 eexists. split; [reflexivity|].
    unfold Machine.crossing_output.
    destruct (SFeqb (Machine.original_d a b) Machine.zero) eqn:Z.
    + split.
      * intros [H | []]. discriminate H.
      * right. split; [reflexivity|]. split; [|reflexivity].
        do 2 eexists. reflexivity.
    + split; [intros []|left; reflexivity].
Qed.

Lemma machine_exact_side_never_reenters_witness :
  exists outcome output,
    Machine.apply side_by_triangle
      (Machine.seg Machine.zero Machine.zero (Machine.pow2 3) Machine.zero)
      (Machine.seg (Machine.pow2 2) (SFopp (Machine.pow2 2))
                   (Machine.pow2 2) (Machine.pow2 2))
      (RPoint 0 0) (RPoint 8 0) (RPoint 4 (-4)) (RPoint 4 4)
    = Some (outcome, output)
    /\ ~ In "Warning: robust_d=0, SHOULD NOT OCCUR"%string output.
Proof.
  destruct (machine_exact_side_never_reenters
              (Machine.seg Machine.zero Machine.zero
                           (Machine.pow2 3) Machine.zero)
              (Machine.seg (Machine.pow2 2) (SFopp (Machine.pow2 2))
                           (Machine.pow2 2) (Machine.pow2 2))
              (RPoint 0 0) (RPoint 8 0) (RPoint 4 (-4)) (RPoint 4 4))
    as (outcome & output & H & N & _).
  - unfold Machine.in_range; cbn; lia.
  - unfold Machine.in_range; cbn; lia.
  - unfold Machine.in_range; cbn; lia.
  - unfold Machine.in_range; cbn; lia.
  - exists outcome, output. split; assumption.
Defined.

(** X3. While the rescaled coordinates lie strictly between -2^30 and 2^30,
    with the exact orientation predicate the two robust ratios of every
    crossing outcome are on their segments: each lies from 0 to 1, so that
    the crossing is within the finite extent of both [a] and [b]. *)
Theorem machine_crossing_ratios_on_segment (a b : Machine.segment)
    (robust_a1 robust_a2 robust_b1 robust_b2 : robust_point)
    (sides : side_info) (sinfo : Machine.segment_intersection_info)
    (a' b' : Machine.segment) (output : list string) :
  Machine.in_range robust_a1 -> Machine.in_range robust_a2 ->
  Machine.in_range robust_b1 -> Machine.in_range robust_b2 ->
  Machine.apply side_by_triangle a b robust_a1 robust_a2 robust_b1 robust_b2
  = Some (Machine.segments_crosses sides sinfo a' b', output) ->
  exists ra rb,
    Machine.robust_ra sinfo = Some ra /\ Machine.robust_rb sinfo = Some rb
    /\ on_segment ra = true /\ on_segment rb = true
    /\ left ra = false /\ right ra = false
    /\ left rb = false /\ right rb = false.
Proof.
  intros R1 R2 R3 R4 E.
  destruct (machine_robust_exact _ _ _ _ R1 R2 R3 R4) as (E0 & _).
  destruct (machine_crossing_ratios a b _ _ _ _ R1 R2 R3 R4) as [Ra Rb].
  destruct (machine_apply_paths side_by_triangle a b
              robust_a1 robust_a2 robust_b1 robust_b2)
    as [P | [(s & f & P)
            | (_ & _ & Es & [(_ & P) | [(_ & _ & P) | (_ & Ed & P)]])]];
    rewrite P in E; try discriminate E.
  - injection E as E _.
    apply machine_relate_collinear_dim_not_crosses in E. contradiction.
  - injection E as E _.
    apply machine_relate_collinear_dim_not_crosses in E. contradiction.
  - injection E as _ <- _ _ _. rewrite E0 in Ed. do 2 eexists.
    split; [exact Ra|]. split; [exact Rb|].
    destruct (exact_crossing_on_segment _ _ _ _ Es Ed) as [Oa Ob].
    destruct (on_segment_not_left_right _ Oa) as [La' Ra'].
    destruct (on_segment_not_left_right _ Ob) as [Lb' Rb'].
    repeat split; assumption.
Qed.

Lemma machine_crossing_ratios_on_segment_witness :
  exists ra rb,
    Machine.robust_ra
      (Machine.crossing_info
         (Machine.seg Machine.zero Machine.zero (Machine.pow2 3) Machine.zero)
         (Machine.seg (Machine.pow2 2) (SFopp (Machine.pow2 2))
                      (Machine.pow2 2) (Machine.pow2 2))
         (RPoint 0 0) (RPoint 8 0) (RPoint 4 (-4)) (RPoint 4 4))
    = Some ra
    /\ Machine.robust_rb
         (Machine.crossing_info
            (Machine.seg Machine.zero Machine.zero
                         (Machine.pow2 3) Machine.zero)
            (Machine.seg (Machine.pow2 2) (SFopp (Machine.pow2 2))
                         (Machine.pow2 2) (Machine.pow2 2))
            (RPoint 0 0) (RPoint 8 0) (RPoint 4 (-4)) (RPoint 4 4))
       = Some rb
    /\ on_segment ra = true /\ on_segment rb = true
    /\ left ra = false /\ right ra = false
    /\ left rb = false /\ right rb = false.
Proof.
  apply (machine_crossing_ratios_on_segment
           (Machine.seg Machine.zero Machine.zero
                        (Machine.pow2 3) Machine.zero)
           (Machine.seg (Machine.pow2 2) (SFopp (Machine.pow2 2))
                        (Machine.pow2 2) (Machine.pow2 2))
           (RPoint 0 0) (RPoint 8 0) (RPoint 4 (-4)) (RPoint 4 4)
           (SideInfo (1, -1) (-1, 1)) _
           (Machine.seg Machine.zero Machine.zero
                        (Machine.pow2 3) Machine.zero)
           (Machine.seg (Machine.pow2 2) (SFopp (Machine.pow2 2))
                        (Machine.pow2 2) (Machine.pow2 2)) []).
  - unfold Machine.in_range; cbn; lia.
  - unfold Machine.in_range; cbn; lia.
  - unfold Machine.in_range; cbn; lia.
  - unfold Machine.in_range; cbn; lia.
  - vm_compute. reflexivity.
Defined.

(** X4. While the rescaled coordinates lie strictly between -2^30 and 2^30,
    the two robust ratios of a crossing outcome locate one and the same
    point: the point at [robust_ra] along [a] is the point at [robust_rb]
    along [b], whatever the side strategy. *)
Theorem machine_crossing_ratios_same_point (side : side_strategy)
    (a b : Machine.segment)
    (robust_a1 robust_a2 robust_b1 robust_b2 : robust_point)
    (sides : side_info) (sinfo : Machine.segment_intersection_info)
    (a' b' : Machine.segment) (output : list string) :
  Machine.in_range robust_a1 -> Machine.in_range robust_a2 ->
  Machine.in_range robust_b1 -> Machine.in_range robust_b2 ->
  Machine.apply side a b robust_a1 robust_a2 robust_b1 robust_b2
  = Some (Machine.segments_crosses sides sinfo a' b', output) ->
  exists ra rb,
    Machine.robust_ra sinfo = Some ra /\ Machine.robust_rb sinfo = Some rb
    /\ (point_x robust_a1 robust_a2 (ratio_Q ra)
        == point_x robust_b1 robust_b2 (ratio_Q rb))%Q
    /\ (point_y robust_a1 robust_a2 (ratio_Q ra)
        == point_y robust_b1 robust_b2 (ratio_Q rb))%Q.
Proof.
  intros R1 R2 R3 R4 E.
  destruct (machine_robust_exact _ _ _ _ R1 R2 R3 R4) as (E0 & _).
  destruct (machine_crossing_ratios a b _ _ _ _ R1 R2 R3 R4) as [Ra Rb].
  destruct (machine_apply_paths side a b
              robust_a1 robust_a2 robust_b1 robust_b2)
    as [P | [(s & f & P)
            | (_ & _ & _ & [(_ & P) | [(_ & _ & P) | (_ & Ed & P)]])]];
    rewrite P in E; try discriminate E.
  - injection E as E _.
    apply machine_relate_collinear_dim_not_crosses in E. contradiction.
  - injection E as E _.
    apply machine_relate_collinear_dim_not_crosses in E. contradiction.
  - injection E as _ <- _ _ _. rewrite E0 in Ed. do 2 eexists.
    split; [exact Ra|]. split; [exact Rb|].
    apply crossing_point_agrees. exact Ed.
Qed.

Lemma machine_crossing_ratios_same_point_witness :
  exists ra rb,
    Machine.robust_ra
      (Machine.crossing_info
         (Machine.seg Machine.zero Machine.zero (Machine.pow2 3) Machine.zero)
         (Machine.seg (Machine.pow2 2) (SFopp (Machine.pow2 2))
                      (Machine.pow2 2) (Machine.pow2 2))
         (RPoint 0 0) (RPoint 8 0) (RPoint 4 (-4)) (RPoint 4 4))
    = Some ra
    /\ Machine.robust_rb
         (Machine.crossing_info
            (Machine.seg Machine.zero Machine.zero
                         (Machine.pow2 3) Machine.zero)
            (Machine.seg (Machine.pow2 2) (SFopp (Machine.pow2 2))
                         (Machine.pow2 2) (Machine.pow2 2))
            (RPoint 0 0) (RPoint 8 0) (RPoint 4 (-4)) (RPoint 4 4))
       = Some rb
    /\ (point_x (RPoint 0 0) (RPoint 8 0) (ratio_Q ra)
        == point_x (RPoint 4 (-4)) (RPoint 4 4) (ratio_Q rb))%Q
    /\ (point_y (RPoint 0 0) (RPoint 8 0) (ratio_Q ra)
        == point_y (RPoint 4 (-4)) (RPoint 4 4) (ratio_Q rb))%Q.
Proof.
  apply (machine_crossing_ratios_same_point side_by_triangle
           (Machine.seg Machine.zero Machine.zero
                        (Machine.pow2 3) Machine.zero)
           (Machine.seg (Machine.pow2 2) (SFopp (Machine.pow2 2))
                        (Machine.pow2 2) (Machine.pow2 2))
           (RPoint 0 0) (RPoint 8 0) (RPoint 4 (-4)) (RPoint 4 4)
           (SideInfo (1, -1) (-1, 1)) _
           (Machine.seg Machine.zero Machine.zero
                        (Machine.pow2 3) Machine.zero)
           (Machine.seg (Machine.pow2 2) (SFopp (Machine.pow2 2))
                        (Machine.pow2 2) (Machine.pow2 2)) []).
  - unfold Machine.in_range; cbn; lia.
  - unfold Machine.in_range; cbn; lia.
  - unfold Machine.in_range; cbn; lia.
  - unfold Machine.in_range; cbn; lia.
  - vm_compute. reflexivity.
Defined.

(** X13. While the rescaled coordinates lie strictly between -2^30 and 2^30,
    in a crossing outcome the side evidence (exact orientation signs) and
    the robust ratios agree on touching endpoints: the start of [a] is on
    the line of [b] (sign 0) exactly when [robust_ra] is 0, its end exactly
    when [robust_ra] is 1, and likewise for the endpoints of [b] and
    [robust_rb]. *)
Theorem machine_crossing_sides_agree_with_ratios (a b : Machine.segment)
    (robust_a1 robust_a2 robust_b1 robust_b2 : robust_point)
    (sides : side_info) (sinfo : Machine.segment_intersection_info)
    (a' b' : Machine.segment) (output : list string) :
  Machine.in_range robust_a1 -> Machine.in_range robust_a2 ->
  Machine.in_range robust_b1 -> Machine.in_range robust_b2 ->
  Machine.apply side_by_triangle a b robust_a1 robust_a2 robust_b1 robust_b2
  = Some (Machine.segments_crosses sides sinfo a' b', output) ->
  exists ra rb,
    Machine.robust_ra sinfo = Some ra /\ Machine.robust_rb sinfo = Some rb
    /\ (fst (sides_0 sides) = 0 <-> numerator ra = 0)
    /\ (snd (sides_0 sides) = 0 <-> numerator ra = denominator ra)
    /\ (fst (sides_1 sides) = 0 <-> numerator rb = 0)
    /\ (snd (sides_1 sides) = 0 <-> numerator rb = denominator rb).
Proof.
  intros R1 R2 R3 R4 E.
  destruct (machine_robust_exact _ _ _ _ R1 R2 R3 R4) as (E0 & _).
  destruct (machine_crossing_ratios a b _ _ _ _ R1 R2 R3 R4) as [Ra Rb].
  destruct (machine_apply_paths side_by_triangle a b
              robust_a1 robust_a2 robust_b1 robust_b2)
    as [P | [(s & f & P)
            | (_ & _ & Es & [(_ & P) | [(_ & _ & P) | (_ & Ed & P)]])]];
    rewrite P in E; try discriminate E.
  - injection E as E _.
    apply machine_relate_collinear_dim_not_crosses in E. contradiction.
  - injection E as E _.
    apply machine_relate_collinear_dim_not_crosses in E. contradiction.
  - injection E as <- <- _ _. rewrite E0 in Ed. do 2 eexists.
    split; [exact Ra|]. split; [exact Rb|].
    unfold side_evidence, set. cbn [sides_0 sides_1 fst snd].
    rewrite !side_by_triangle_zero.
    rewrite (cross_far_end_a robust_a1 robust_a2 robust_b1 robust_b2).
    rewrite (cross_far_end_b robust_a1 robust_a2 robust_b1 robust_b2).
    rewrite robust_db0_opp, robust_da_cross, robust_db_cross.
    unfold ratio_assign.
    set (d := robust_da0 robust_a1 robust_a2 robust_b1 robust_b2) in *.
    destruct (Z.ltb_spec d 0); destruct (Z.ltb_spec (- d) 0);
      cbn [numerator denominator]; repeat split; lia.
Qed.

Lemma machine_crossing_sides_agree_with_ratios_witness :
  exists ra rb,
    Machine.robust_ra
      (Machine.crossing_info
         (Machine.seg Machine.zero Machine.zero Machine.ten Machine.zero)
         (Machine.seg Machine.ten Machine.zero Machine.ten Machine.ten)
         (RPoint 0 0) (RPoint 10 0) (RPoint 10 0) (RPoint 10 10))
    = Some ra
    /\ Machine.robust_rb
         (Machine.crossing_info
            (Machine.seg Machine.zero Machine.zero Machine.ten Machine.zero)
            (Machine.seg Machine.ten Machine.zero Machine.ten Machine.ten)
            (RPoint 0 0) (RPoint 10 0) (RPoint 10 0) (RPoint 10 10))
       = Some rb
    /\ (fst (sides_0 (SideInfo (1, 0) (0, 1))) = 0 <-> numerator ra = 0)
    /\ (snd (sides_0 (SideInfo (1, 0) (0, 1))) = 0
        <-> numerator ra = denominator ra)
    /\ (fst (sides_1 (SideInfo (1, 0) (0, 1))) = 0 <-> numerator rb = 0)
    /\ (snd (sides_1 (SideInfo (1, 0) (0, 1))) = 0
        <-> numerator rb = denominator rb).
Proof.
  apply (machine_crossing_sides_agree_with_ratios
           (Machine.seg Machine.zero Machine.zero Machine.ten Machine.zero)
           (Machine.seg Machine.ten Machine.zero Machine.ten Machine.ten)
           (RPoint 0 0) (RPoint 10 0) (RPoint 10 0) (RPoint 10 10)
           (SideInfo (1, 0) (0, 1)) _
           (Machine.seg Machine.zero Machine.zero Machine.ten Machine.zero)
           (Machine.seg Machine.ten Machine.zero Machine.ten Machine.ten) []).
  - unfold Machine.in_range; cbn; lia.
  - unfold Machine.in_range; cbn; lia.
  - unfold Machine.in_range; cbn; lia.
  - unfold Machine.in_range; cbn; lia.
  - vm_compute. reflexivity.
Defined.
